(** * std::threadsafe::map — a shallow embedding of include/map-threadsafe.hpp

    The class wraps a [std::map<K,V>] ([internal_map]) and a
    [std::shared_mutex] ([mutex]).  Every public method first declares a
    lock guard on [mutex] ([std::shared_lock] or [std::unique_lock]) and
    then runs a short body on [internal_map].

    - [std::map] is modelled by the sequence of its entries in iteration
      order (strictly ascending keys); an iterator is a position in that
      sequence and [end()] is its length.
    - A method is a pair of the guard it declares and its body; the body
      passes the store explicitly and lives in the option monad, [None]
      standing for undefined behaviour (dereferencing [end()], writing
      outside the destination range).
    - Reference parameters that the method assigns ([V& output]) are
      passed in and returned. *)

From stdpp Require Import base option list sorting.
From Equations.Prop Require Import Equations Logic.

Set Default Proof Using "Type*".

(** ** Requirements on the template parameters *)

(** [std::less<K>]: the comparator of [std::map<K,V>], a strict total order. *)
Class Less (K : Type) := {
  less : K → K → bool;
  less_irrefl : ∀ a, less a a = false;
  less_trans : ∀ a b c, less a b = true → less b c = true → less a c = true;
  less_total : ∀ a b, less a b = false → less b a = false → a = b;
}.

(** [operator==] on [V] (and [operator!=] as its negation), used by the
    compare-and-delete and compare-and-swap methods. *)
Class EqualityComparable (V : Type) := {
  equal : V → V → bool;
  equal_spec : ∀ a b, equal a b = true ↔ a = b;
}.

(** ** std::map<K,V> *)

Module StdMap.
(** An iterator is a position in the sequence of entries. *)
Abbreviation iterator := nat.

Section StdMap.
Context {K V : Type} `{Less K}.

(** The entries, in iteration order. *)
Local Abbreviation t := (list (K * V)).

Definition begin_ (m : t) : iterator := 0.
Definition end_ (m : t) : iterator := length m.
Definition size (m : t) : nat := length m.
Definition empty (m : t) : bool := bool_decide (length m = 0).
Definition clear (m : t) : t := [].

(** [*it]; undefined at [end()]. *)
Definition deref (it : iterator) (m : t) : option (K * V) := m !! it.
(** [*rbegin()]; undefined on an empty map. *)
Definition rbegin_deref (m : t) : option (K * V) := last m.
(** [it->second = v]; undefined at [end()]. *)
Definition assign_second (it : iterator) (v : V) (m : t) : option t :=
  e ← m !! it; Some (<[it := (e.1, v)]> m).

(** First position whose key is not less than [key]. *)
Fixpoint lower_bound (key : K) (m : t) : iterator :=
  match m with
  | [] => 0
  | e :: m' => if less e.1 key then S (lower_bound key m') else 0
  end.

(** Is the entry at [it] (a lower bound of [key]) equivalent to [key]? *)
Definition hit (key : K) (it : iterator) (m : t) : bool :=
  match m !! it with
  | Some e => negb (less key e.1)
  | None => false
  end.

Definition find (key : K) (m : t) : iterator :=
  let it := lower_bound key m in
  if hit key it m then it else end_ m.

(** [insert(value_type)]: the iterator, whether the insertion took place,
    and the map afterwards. *)
Definition insert (e : K * V) (m : t) : iterator * bool * t :=
  let it := lower_bound e.1 m in
  if hit e.1 it m then (it, false, m)
  else (it, true, take it m ++ e :: drop it m).

(** [erase(iterator)]; undefined at [end()]. *)
Definition erase_at (it : iterator) (m : t) : option t :=
  _ ← m !! it; Some (delete it m).

(** [erase(key)]: the number of entries removed, and the map afterwards. *)
Definition erase (key : K) (m : t) : nat * t :=
  let it := lower_bound key m in
  if hit key it m then (1, delete it m) else (0, m).

(** The representation invariant of [std::map]: keys strictly ascending. *)
Definition key_lt (a b : K * V) : Prop := less a.1 b.1 = true.
Definition wf (m : t) : Prop := StronglySorted key_lt m.

Definition keys (m : t) : list K := m.*1.

(** The two outcomes of a search for [key] in a sorted map: the entries
    split around the lower bound, with [key] between the two halves or at
    the head of the second. *)
Inductive search (key : K) (m : t) : Prop :=
| search_miss l r :
    m = l ++ r → lower_bound key m = length l →
    hit key (length l) m = false →
    Forall (λ e, less e.1 key = true) l →
    Forall (λ e, less key e.1 = true) r →
    search key m
| search_hit l v r :
    m = l ++ (key, v) :: r → lower_bound key m = length l →
    hit key (length l) m = true →
    Forall (λ e, less e.1 key = true) l →
    Forall (λ e, less key e.1 = true) r →
    search key m.
End StdMap.
End StdMap.

(** ** std::shared_mutex and its guards *)

Inductive lock_kind := shared_lock | unique_lock.

Record shared_mutex := { writer : bool; readers : nat }.

Definition unlocked : shared_mutex := {| writer := false; readers := 0 |}.

(** Constructing a guard acquires the mutex; [None] when the caller has to
    block. *)
Definition acquire (g : lock_kind) (mu : shared_mutex) : option shared_mutex :=
  match g with
  | shared_lock =>
      if writer mu then None
      else Some {| writer := false; readers := S (readers mu) |}
  | unique_lock =>
      if writer mu || bool_decide (readers mu ≠ 0) then None
      else Some {| writer := true; readers := 0 |}
  end.

(** Destroying a guard releases what it acquired. *)
Definition release (g : lock_kind) (mu : shared_mutex) : shared_mutex :=
  match g with
  | shared_lock => {| writer := writer mu; readers := pred (readers mu) |}
  | unique_lock => {| writer := false; readers := readers mu |}
  end.

(** ** std::threadsafe::map<K,V> *)

Section ThreadsafeMap.
Context {K V : Type} `{Less K} `{EqualityComparable V}.

Local Abbreviation store := (list (K * V)).

(** A method: the guard declared on [mutex] in its first statement, and
    the rest of the body as a function of [internal_map]. *)
Record method (R : Type) := Locked {
  guard : option lock_kind;
  body : store → option (R * store);
}.
Global Arguments Locked {R} _ _.
Global Arguments guard {R} _.
Global Arguments body {R} _ _.

(** [map(){}] and [map(const std::map<K,V>& m) : internal_map(m){}]. *)
Definition map_new : store := [].
Definition map_of (m : store) : store := m.

Definition get (key : K) (output : V) : method (bool * V) :=
  Locked (Some shared_lock) (λ internal_map,
    let it := StdMap.find key internal_map in
    if bool_decide (it = StdMap.end_ internal_map) then
      Some (false, output, internal_map)
    else
      e ← StdMap.deref it internal_map;
      Some (true, e.2, internal_map)).

Definition getTail (output : V) : method (bool * V) :=
  Locked (Some shared_lock) (λ internal_map,
    if negb (StdMap.empty internal_map) then
      e ← StdMap.rbegin_deref internal_map;
      Some (true, e.2, internal_map)
    else Some (false, output, internal_map)).

Definition getHead (output : V) : method (bool * V) :=
  Locked (Some shared_lock) (λ internal_map,
    if negb (StdMap.empty internal_map) then
      e ← StdMap.deref (StdMap.begin_ internal_map) internal_map;
      Some (true, e.2, internal_map)
    else Some (false, output, internal_map)).

Definition getAndEraseHead (output : V) : method (bool * V) :=
  Locked (Some shared_lock) (λ internal_map,
    if negb (StdMap.empty internal_map) then
      let iter := StdMap.begin_ internal_map in
      e ← StdMap.deref iter internal_map;
      m' ← StdMap.erase_at iter internal_map;
      Some (true, e.2, m')
    else Some (false, output, internal_map)).

Definition eraseHead : method bool :=
  Locked (Some shared_lock) (λ internal_map,
    if negb (StdMap.empty internal_map) then
      let iter := StdMap.begin_ internal_map in
      m' ← StdMap.erase_at iter internal_map;
      Some (true, m')
    else Some (false, internal_map)).

Definition insert (key : K) (value : V) : method bool :=
  Locked (Some unique_lock) (λ internal_map,
    let r := StdMap.insert (key, value) internal_map in
    Some (r.1.2, r.2)).

Definition erase (key : K) : method nat :=
  Locked (Some unique_lock) (λ internal_map,
    Some (StdMap.erase key internal_map)).

Definition size : method nat :=
  Locked (Some shared_lock) (λ internal_map,
    Some (StdMap.size internal_map, internal_map)).

Definition sizeNoThreadSafe : method nat :=
  Locked None (λ internal_map,
    Some (StdMap.size internal_map, internal_map)).

Definition empty : method bool :=
  Locked (Some shared_lock) (λ internal_map,
    Some (StdMap.empty internal_map, internal_map)).

Definition contains (key : K) : method bool :=
  Locked (Some shared_lock) (λ internal_map,
    let it := StdMap.find key internal_map in
    Some (bool_decide (it = StdMap.end_ internal_map), internal_map)).

Definition clear : method unit :=
  Locked (Some unique_lock) (λ internal_map,
    Some (tt, StdMap.clear internal_map)).

Definition putIfAbsent (key : K) (value : V) : method V :=
  Locked (Some unique_lock) (λ internal_map,
    let it := StdMap.find key internal_map in
    if bool_decide (it = StdMap.end_ internal_map) then
      Some (value, (StdMap.insert (key, value) internal_map).2)
    else
      e ← StdMap.deref it internal_map;
      Some (e.2, internal_map)).

(** The loop of [getValues]: [begin_] and [end_] delimit the destination
    range inside the caller's sequence [dest]. *)
Equations getValues_loop (begin_ end_ it : nat) (dest : list (K * V))
    (internal_map : store) : option (nat * list (K * V))
    by wf (length internal_map - it) lt :=
  getValues_loop begin_ end_ it dest internal_map
    with bool_decide (begin_ ≠ end_)
         && bool_decide (it ≠ StdMap.end_ internal_map) := {
    | true with inspect (StdMap.deref it internal_map) := {
      | exist _ (Some e) Hit =>
          _ ← dest !! begin_;
          getValues_loop (S begin_) end_ (S it) (<[begin_ := e]> dest)
            internal_map
      | exist _ None _ => None }
    | false => Some (begin_, dest) }.
Next Obligation.
  intros. apply lookup_lt_Some in Hit. lia.
Qed.

Definition getValues (begin_ end_ : nat) (dest : list (K * V))
    : method (nat * list (K * V)) :=
  Locked (Some shared_lock) (λ internal_map,
    r ← getValues_loop begin_ end_ (StdMap.begin_ internal_map) dest
          internal_map;
    Some (r, internal_map)).

Definition remove (key : K) (value : V) : method bool :=
  Locked (Some unique_lock) (λ internal_map,
    let it := StdMap.find key internal_map in
    if bool_decide (it = StdMap.end_ internal_map) then
      Some (false, internal_map)
    else
      e ← StdMap.deref it internal_map;
      if negb (equal e.2 value) then Some (false, internal_map)
      else
        m' ← StdMap.erase_at it internal_map;
        Some (true, m')).

Definition replace (key : K) (value : V) : method bool :=
  Locked (Some unique_lock) (λ internal_map,
    let it := StdMap.find key internal_map in
    if bool_decide (it ≠ StdMap.end_ internal_map) then
      m' ← StdMap.assign_second it value internal_map;
      Some (true, m')
    else Some (false, internal_map)).

Definition insertOrReplace (key : K) (value : V) : method bool :=
  Locked (Some unique_lock) (λ internal_map,
    let it := StdMap.find key internal_map in
    if bool_decide (it ≠ StdMap.end_ internal_map) then
      m' ← StdMap.assign_second it value internal_map;
      Some (false, m')
    else
      let r := StdMap.insert (key, value) internal_map in
      Some (r.1.2, r.2)).

(** The overload with an out-parameter.  [newValue] and [oldValue] are
    references to objects of the caller, here positions in the caller's
    frame of [V] objects, so that a call passing the same object for both
    is represented. *)
Definition insertOrReplace3 (key : K) (newValue oldValue : nat)
    (caller : list V) : method (bool * list V) :=
  Locked (Some unique_lock) (λ internal_map,
    let it := StdMap.find key internal_map in
    if bool_decide (it ≠ StdMap.end_ internal_map) then
      e ← StdMap.deref it internal_map;
      _ ← caller !! oldValue;
      let caller := <[oldValue := e.2]> caller in
      v ← caller !! newValue;
      m' ← StdMap.assign_second it v internal_map;
      Some (false, caller, m')
    else
      v ← caller !! newValue;
      let r := StdMap.insert (key, v) internal_map in
      Some (r.1.2, caller, r.2)).

Definition replace3 (key : K) (oldValue newValue : V) : method bool :=
  Locked (Some unique_lock) (λ internal_map,
    let it := StdMap.find key internal_map in
    if bool_decide (it ≠ StdMap.end_ internal_map) then
      e ← StdMap.deref it internal_map;
      if equal e.2 oldValue then
        m' ← StdMap.assign_second it newValue internal_map;
        Some (true, m')
      else Some (false, internal_map)
    else Some (false, internal_map)).

(** Entering a method constructs its guard. *)
Definition enter {R} (op : method R) (mu : shared_mutex)
    : option shared_mutex :=
  match guard op with
  | Some g => acquire g mu
  | None => Some mu
  end.

(** Leaving it, on any path, destroys the guard. *)
Definition leave {R} (op : method R) (mu : shared_mutex) : shared_mutex :=
  match guard op with
  | Some g => release g mu
  | None => mu
  end.

(** A call on a map object whose mutex can be acquired at once. *)
Definition call {R} (op : method R) (obj : shared_mutex * store)
    : option (R * (shared_mutex * store)) :=
  mu ← enter op obj.1;
  r ← body op obj.2;
  Some (r.1, (leave op mu, r.2)).

(** A method is sound when, on every sorted store, its body runs into no
    undefined behaviour and hands back a sorted store. *)
Definition sound {R} (op : method R) : Prop :=
  ∀ m, StdMap.wf m → ∃ r m', body op m = Some (r, m') ∧ StdMap.wf m'.
End ThreadsafeMap.

(** ** Integer keys and values *)

Lemma Z_ltb_trans (a b c : Z) :
  Z.ltb a b = true → Z.ltb b c = true → Z.ltb a c = true.
Proof. rewrite !Z.ltb_lt. lia. Qed.

Lemma Z_ltb_total (a b : Z) : Z.ltb a b = false → Z.ltb b a = false → a = b.
Proof. rewrite !Z.ltb_ge. lia. Qed.

#[export] Instance Z_less : Less Z :=
  {| less := Z.ltb; less_irrefl := Z.ltb_irrefl;
     less_trans := Z_ltb_trans; less_total := Z_ltb_total |}.

#[export] Instance Z_equal : EqualityComparable Z :=
  {| equal := Z.eqb; equal_spec := Z.eqb_eq |}.

(** ** Facts about std::map *)

Section StdMapFacts.
Context {K V : Type} {HK : Less K}.
Implicit Types (m l r : list (K * V)) (key : K) (e : K * V).

Local Abbreviation below key := (λ e : K * V, less e.1 key = true).
Local Abbreviation above key := (λ e : K * V, less key e.1 = true).

Lemma below_not_key key l : Forall (below key) l → key ∉ StdMap.keys l.
Proof.
  intros Hl [e [-> He]]%list_elem_of_fmap.
  rewrite Forall_forall in Hl. specialize (Hl _ He). cbn in Hl.
  by rewrite less_irrefl in Hl.
Qed.

Lemma above_not_key key r : Forall (above key) r → key ∉ StdMap.keys r.
Proof.
  intros Hr [e [-> He]]%list_elem_of_fmap.
  rewrite Forall_forall in Hr. specialize (Hr _ He). cbn in Hr.
  by rewrite less_irrefl in Hr.
Qed.

Lemma wf_nil : StdMap.wf (@nil (K * V)).
Proof. constructor. Qed.

Lemma wf_cons e m :
  StdMap.wf (e :: m) ↔ Forall (above e.1) m ∧ StdMap.wf m.
Proof. apply StronglySorted_cons. Qed.

(** A sorted sequence around a key that fits between its two halves. *)
Lemma wf_middle l e r :
  StdMap.wf (l ++ e :: r) ↔
  StdMap.wf (l ++ r) ∧ Forall (below e.1) l ∧ Forall (above e.1) r.
Proof.
  unfold StdMap.wf. rewrite !StronglySorted_app, StronglySorted_cons.
  rewrite !Forall_forall. split.
  - intros (Hlr & Hl & Hr & Hrr). repeat split; auto.
    + intros x1 x2 H1 H2. apply Hlr; [done | by right].
    + intros x Hx. apply Hlr; [done | by left].
  - intros ((Hlr & Hl & Hr) & Hb & Ha). repeat split; auto.
    intros x1 x2 H1 [-> | H2]%elem_of_cons; [by apply Hb | by apply Hlr].
Qed.

Lemma wf_middle_2 l e r :
  StdMap.wf (l ++ r) → Forall (below e.1) l → Forall (above e.1) r →
  StdMap.wf (l ++ e :: r).
Proof. intros. by apply wf_middle. Qed.

(** Everything before the lower bound is less than the key; in a sorted
    sequence nothing from the lower bound on is. *)
Lemma lower_bound_split key m :
  StdMap.wf m →
  ∃ l r, m = l ++ r ∧ StdMap.lower_bound key m = length l ∧
         Forall (below key) l ∧
         Forall (λ e, less e.1 key = false) r.
Proof.
  induction m as [|e m IH]; intros Hwf.
  - exists [], []. by repeat split.
  - apply wf_cons in Hwf as [Habove Hwf]. cbn.
    destruct (less e.1 key) eqn:He.
    + destruct (IH Hwf) as (l & r & -> & Hlb & Hl & Hr).
      exists (e :: l), r. cbn. rewrite Hlb. repeat split; auto.
    + exists [], (e :: m). repeat split; auto.
      constructor; [done |].
      eapply Forall_impl; [exact Habove |]. intros e' He'. cbn in He'.
      destruct (less e'.1 key) eqn:He''; [| done].
      by rewrite (less_trans _ _ _ He' He'') in He.
Qed.

Lemma search_total key m : StdMap.wf m → StdMap.search key m.
Proof.
  intros Hwf.
  destruct (lower_bound_split key m Hwf) as (l & r & -> & Hlb & Hl & Hr).
  destruct r as [|e r].
  - eapply StdMap.search_miss; eauto.
    unfold StdMap.hit.
    by rewrite lookup_ge_None_2 by (rewrite length_app; cbn; lia).
  - apply Forall_cons in Hr as [He Hr].
    apply wf_middle in Hwf as (_ & _ & Habove).
    destruct (less key e.1) eqn:Hke.
    + eapply StdMap.search_miss; eauto.
      * unfold StdMap.hit. rewrite list_lookup_middle by done. cbn.
        by rewrite Hke.
      * constructor; [done |].
        eapply Forall_impl; [exact Habove |]. intros e' He'. cbn in *.
        by eapply less_trans.
    + assert (e.1 = key) as Hkey by (by apply less_total).
      destruct e as [k v]; cbn in Hkey; subst k.
      eapply StdMap.search_hit; eauto.
      unfold StdMap.hit. rewrite list_lookup_middle by done. cbn.
      by rewrite less_irrefl.
Qed.

Lemma middle_not_end l e r : length l ≠ StdMap.end_ (l ++ e :: r).
Proof. unfold StdMap.end_. rewrite length_app. cbn. lia. Qed.

Lemma elem_of_middle e l x r : e ∈ l ++ x :: r ↔ e = x ∨ e ∈ l ++ r.
Proof. rewrite !elem_of_app, elem_of_cons. tauto. Qed.

Lemma keys_middle l e r :
  StdMap.keys (l ++ e :: r) = StdMap.keys l ++ e.1 :: StdMap.keys r.
Proof. unfold StdMap.keys. by rewrite fmap_app. Qed.

Lemma keys_elem_of key v m : (key, v) ∈ m → key ∈ StdMap.keys m.
Proof. intros. apply list_elem_of_fmap. by exists (key, v). Qed.

(** A key occurs once in a sorted sequence. *)
Lemma middle_unique key v w l r :
  Forall (below key) l → Forall (above key) r →
  (key, w) ∈ l ++ (key, v) :: r → w = v.
Proof.
  intros Hl Hr [Hin | Hin]%elem_of_middle; [congruence |].
  apply elem_of_app in Hin as [Hin | Hin]; apply keys_elem_of in Hin.
  - by apply below_not_key in Hl.
  - by apply above_not_key in Hr.
Qed.

(** What the operations of [std::map] do when the key is not there. *)
Lemma search_absent key m :
  StdMap.wf m → key ∉ StdMap.keys m →
  ∃ l r, m = l ++ r ∧
    Forall (below key) l ∧ Forall (above key) r ∧
    StdMap.find key m = StdMap.end_ m ∧
    StdMap.erase key m = (0, m) ∧
    ∀ v, StdMap.insert (key, v) m = (length l, true, l ++ (key, v) :: r).
Proof.
  intros Hwf Hkey.
  destruct (search_total key m Hwf) as [l r -> Hlb Hhit Hl Hr
                                       |l v r -> _ _ _ _].
  - exists l, r. unfold StdMap.find, StdMap.erase, StdMap.insert. cbn.
    rewrite Hlb, Hhit, take_app_length, drop_app_length. done.
  - rewrite keys_middle, elem_of_app, elem_of_cons in Hkey. cbn in Hkey.
    tauto.
Qed.

(** ... and when it is. *)
Lemma search_present key w m :
  StdMap.wf m → (key, w) ∈ m →
  ∃ l r, m = l ++ (key, w) :: r ∧
    Forall (below key) l ∧ Forall (above key) r ∧
    StdMap.find key m = length l ∧
    StdMap.erase key m = (1, l ++ r) ∧
    ∀ v, StdMap.insert (key, v) m = (length l, false, m).
Proof.
  intros Hwf Hin.
  destruct (search_total key m Hwf) as [l r -> _ _ Hl Hr
                                       |l v r -> Hlb Hhit Hl Hr].
  - apply keys_elem_of in Hin. unfold StdMap.keys in Hin.
    rewrite fmap_app, elem_of_app in Hin.
    apply below_not_key in Hl. apply above_not_key in Hr. tauto.
  - apply middle_unique in Hin as ->; [| done..].
    exists l, r. unfold StdMap.find, StdMap.erase, StdMap.insert. cbn.
    rewrite Hlb, Hhit, delete_middle. done.
Qed.

Lemma deref_middle l e r : StdMap.deref (length l) (l ++ e :: r) = Some e.
Proof. by apply list_lookup_middle. Qed.

Lemma erase_at_middle l e r :
  StdMap.erase_at (length l) (l ++ e :: r) = Some (l ++ r).
Proof.
  unfold StdMap.erase_at. rewrite list_lookup_middle by done. cbn.
  by rewrite delete_middle.
Qed.

Lemma assign_second_middle l e v r :
  StdMap.assign_second (length l) v (l ++ e :: r)
  = Some (l ++ (e.1, v) :: r).
Proof.
  unfold StdMap.assign_second. rewrite list_lookup_middle by done. cbn.
  rewrite insert_app_r_alt by lia. by rewrite Nat.sub_diag.
Qed.

(** The map after the entry of [key] has been overwritten in place. *)
Lemma overwrite_middle key v w l r :
  StdMap.wf (l ++ (key, w) :: r) →
  StdMap.wf (l ++ (key, v) :: r) ∧
  (key, v) ∈ l ++ (key, v) :: r ∧
  StdMap.keys (l ++ (key, v) :: r) = StdMap.keys (l ++ (key, w) :: r) ∧
  ∀ e, e.1 ≠ key → e ∈ l ++ (key, v) :: r ↔ e ∈ l ++ (key, w) :: r.
Proof.
  intros Hwf%wf_middle. split; [by apply wf_middle |].
  split; [apply elem_of_middle; by left |].
  split; [by rewrite !keys_middle |].
  intros e He. rewrite !elem_of_middle.
  split; (intros [-> |]; [done | by right]).
Qed.

(** The map after the entry of [key] has been erased. *)
Lemma erase_middle key w l r :
  StdMap.wf (l ++ (key, w) :: r) →
  StdMap.wf (l ++ r) ∧
  (key ∉ StdMap.keys (l ++ r)) ∧
  ∀ e, e ∈ l ++ r ↔ e ∈ l ++ (key, w) :: r ∧ e ≠ (key, w).
Proof.
  intros (Hwf & Hl & Hr)%wf_middle. split; [done |].
  apply below_not_key in Hl. apply above_not_key in Hr. cbn in Hl, Hr.
  assert (key ∉ StdMap.keys (l ++ r)) as Hkey.
  { unfold StdMap.keys in *. rewrite fmap_app, elem_of_app. tauto. }
  split; [done |]. intros e. rewrite elem_of_middle. split.
  - intros He. split; [by right |]. intros ->. by apply keys_elem_of in He.
  - intros [[-> | He] Hne]; done.
Qed.

(** Absent or present, never both. *)
Lemma absent_or_present key m :
  StdMap.wf m → key ∉ StdMap.keys m ∨ ∃ w, (key, w) ∈ m.
Proof.
  intros Hwf. destruct (search_total key m Hwf) as [l r -> _ _ Hl Hr
                                                   |l v r -> _ _ _ _].
  - left. unfold StdMap.keys. rewrite fmap_app, elem_of_app.
    apply below_not_key in Hl. apply above_not_key in Hr. tauto.
  - right. exists v. apply elem_of_middle. by left.
Qed.

(** A key has one value in a sorted sequence. *)
Lemma wf_functional key v w m :
  StdMap.wf m → (key, v) ∈ m → (key, w) ∈ m → v = w.
Proof.
  intros Hwf Hv Hw.
  destruct (search_present key v m Hwf Hv) as (l & r & -> & Hl & Hr & _).
  symmetry. by eapply middle_unique.
Qed.
End StdMapFacts.

(** ** Facts about std::shared_mutex *)

(** While a [unique_lock] is held nobody else gets the mutex. *)
Lemma unique_lock_excludes g mu mu' :
  acquire unique_lock mu = Some mu' → acquire g mu' = None.
Proof.
  unfold acquire.
  destruct (writer mu || bool_decide (readers mu ≠ 0)); [done |].
  intros [= <-]. by destruct g.
Qed.

(** While a [shared_lock] is held further [shared_lock]s are granted, and
    no [unique_lock]. *)
Lemma shared_lock_admits mu mu' :
  acquire shared_lock mu = Some mu' →
  is_Some (acquire shared_lock mu') ∧ acquire unique_lock mu' = None.
Proof.
  unfold acquire. destruct (writer mu); [done |]. intros [= <-]. cbn. eauto.
Qed.

(** ** The methods, one at a time *)

(** Unfolds a method call to its body on the store. *)
Ltac method_body :=
  unfold get, getTail, getHead, getAndEraseHead, eraseHead, insert, erase,
    size, sizeNoThreadSafe, empty, contains, clear, putIfAbsent, getValues,
    remove, replace, insertOrReplace, insertOrReplace3, replace3;
  cbn [body guard].

(** Decides the test of an iterator against [end()]. *)
Ltac at_end :=
  rewrite ?bool_decide_eq_true_2, ?bool_decide_eq_false_2
    by first [ done | apply middle_not_end
             | let Hne := fresh in intros Hne; by apply Hne
             | let Heq := fresh in
               intros Heq; by apply middle_not_end in Heq ].

(** Splits on whether [key] is in the sorted store [m], and rewrites the
    store and the results of the searches accordingly. *)
Ltac by_search key m Hwf :=
  let l := fresh "l" in
  let r := fresh "r" in
  let w := fresh "w" in
  let Hkey := fresh "Hkey" in
  let Hin := fresh "Hin" in
  let Hfind := fresh "Hfind" in
  let Herase := fresh "Herase" in
  let Hins := fresh "Hins" in
  destruct (absent_or_present key m Hwf) as [Hkey | [w Hin]];
  [ destruct (search_absent key m Hwf Hkey)
      as (l & r & -> & ? & ? & Hfind & Herase & Hins)
  | destruct (search_present key w m Hwf Hin)
      as (l & r & -> & ? & ? & Hfind & Herase & Hins);
    pose proof (erase_middle key w l r Hwf) as (? & _);
    pose proof (λ v, proj1 (overwrite_middle key v w l r Hwf)) ];
  method_body; rewrite ?Hfind, ?Herase, ?Hins; at_end;
  rewrite ?deref_middle; cbn.

Section Methods.
Context {K V : Type} {HK : Less K} {HV : EqualityComparable V}.
Implicit Types (m : list (K * V)) (key : K) (e : K * V).

Lemma get_present key v m (output : V) :
  StdMap.wf m → (key, v) ∈ m →
  body (get key output) m = Some (true, v, m).
Proof.
  intros Hwf Hin.
  destruct (search_present key v m Hwf Hin)
    as (l & r & -> & _ & _ & Hfind & _).
  method_body. rewrite Hfind. at_end. by rewrite deref_middle.
Qed.

Lemma get_absent key m (output : V) :
  StdMap.wf m → key ∉ StdMap.keys m →
  body (get key output) m = Some (false, output, m).
Proof.
  intros Hwf Hkey.
  destruct (search_absent key m Hwf Hkey) as (l & r & -> & _ & _ & Hfind & _).
  method_body. rewrite Hfind. by at_end.
Qed.

(** [insert] on a map without the key. *)
Lemma insert_absent key v m :
  StdMap.wf m → key ∉ StdMap.keys m →
  ∃ m', body (insert key v) m = Some (true, m') ∧ StdMap.wf m' ∧
        ∀ e, e ∈ m' ↔ e = (key, v) ∨ e ∈ m.
Proof.
  intros Hwf Hkey.
  destruct (search_absent key m Hwf Hkey)
    as (l & r & -> & Hl & Hr & _ & _ & Hins).
  exists (l ++ (key, v) :: r). method_body. rewrite Hins. cbn.
  split; [done |]. split; [by apply wf_middle_2 |].
  intros e. apply elem_of_middle.
Qed.

Lemma insert_present key v w m :
  StdMap.wf m → (key, w) ∈ m →
  body (insert key v) m = Some (false, m).
Proof.
  intros Hwf Hin.
  destruct (search_present key w m Hwf Hin)
    as (l & r & -> & _ & _ & _ & _ & Hins).
  method_body. by rewrite Hins.
Qed.

Lemma readers_sound key (output : V) :
  sound (get key output) ∧ sound (@getTail K V output) ∧
  sound (@getHead K V output) ∧ sound (@size K V) ∧
  sound (@sizeNoThreadSafe K V) ∧ sound (@empty K V) ∧
  sound (contains (V:=V) key).
Proof.
  repeat split; intros m Hwf.
  - by_search key m Hwf; eauto.
  - method_body. destruct m as [|e m]; [by eauto |].
    destruct (proj2 (last_is_Some (e :: m))) as [e' He']; [done |].
    unfold StdMap.rbegin_deref. rewrite He'. cbn. eauto.
  - method_body. destruct m as [|e m]; cbn; eauto.
  - method_body. eauto.
  - method_body. eauto.
  - method_body. eauto.
  - method_body. eauto.
Qed.

Lemma mutators_sound key (v v' output : V) :
  sound (insert key v) ∧ sound (erase (V:=V) key) ∧ sound (@clear K V) ∧
  sound (putIfAbsent key v) ∧ sound (remove key v) ∧
  sound (replace key v) ∧ sound (insertOrReplace key v) ∧
  sound (replace3 key v v') ∧ sound (@eraseHead K V) ∧
  sound (getAndEraseHead (K:=K) output).
Proof.
  repeat split; intros m Hwf.
  - by_search key m Hwf; eauto using wf_middle_2.
  - by_search key m Hwf; eauto.
  - method_body. eauto using wf_nil.
  - by_search key m Hwf; eauto using wf_middle_2.
  - by_search key m Hwf; [by eauto |].
    destruct (equal w v); cbn; rewrite ?erase_at_middle; cbn; eauto.
  - by_search key m Hwf; rewrite ?assign_second_middle; cbn; eauto.
  - by_search key m Hwf; rewrite ?assign_second_middle; cbn;
      eauto using wf_middle_2.
  - by_search key m Hwf; [by eauto |].
    destruct (equal w v); cbn; rewrite ?assign_second_middle; cbn; eauto.
  - method_body. destruct m as [|e m]; cbn; [by eauto |].
    apply wf_cons in Hwf as [_ Hwf]. eauto.
  - method_body. destruct m as [|e m]; cbn; [by eauto |].
    apply wf_cons in Hwf as [_ Hwf]. eauto.
Qed.

(** A call on an object whose mutex is free runs the body and leaves the
    mutex free: the guard is released on every path. *)
Lemma call_unlocked {R} (op : method R) m :
  call op (unlocked, m) = r ← body op m; Some (r.1, (unlocked, r.2)).
Proof.
  unfold call, enter, leave. by destruct (guard op) as [[]|].
Qed.

(** C2: for every key and every map, [contains(key)] returns true exactly
    when the key is absent (the iterator returned by [find] is [end()]),
    the inverse of what its name says, and the map is left as it was. *)
Theorem contains_true_iff_absent key m :
  StdMap.wf m →
  ∃ b, body (contains key) m = Some (b, m) ∧
       (b = true ↔ StdMap.find key m = StdMap.end_ m) ∧
       (b = true ↔ key ∉ StdMap.keys m).
Proof.
  intros Hwf. method_body. eexists. split; [done |].
  rewrite bool_decide_eq_true. split; [done |].
  destruct (absent_or_present key m Hwf) as [Hkey | [w Hin]].
  - destruct (search_absent key m Hwf Hkey) as (l & r & _ & _ & _ & -> & _).
    tauto.
  - destruct (search_present key w m Hwf Hin)
      as (l & r & -> & _ & _ & -> & _).
    apply keys_elem_of in Hin. pose proof (middle_not_end l (key, w) r).
    tauto.
Qed.

(** C3: [insert(key, value)] inserts the pair only if the key is absent and
    returns true exactly when it did; on a present key it returns false
    and changes nothing, so that after [insert(k, v1)] and [insert(k, v2)]
    on a map without [k], [get(k)] yields [v1]. *)
Theorem insert_only_if_absent key v m :
  StdMap.wf m →
  (key ∉ StdMap.keys m →
     ∃ m', body (insert key v) m = Some (true, m') ∧ StdMap.wf m' ∧
           (∀ e, e ∈ m' ↔ e = (key, v) ∨ e ∈ m) ∧
           ∀ v2 output,
             body (insert key v2) m' = Some (false, m') ∧
             body (get key output) m' = Some (true, v, m')) ∧
  (∀ w output, (key, w) ∈ m →
     body (insert key v) m = Some (false, m) ∧
     body (get key output) m = Some (true, w, m)) ∧
  (∃ b m', body (insert key v) m = Some (b, m') ∧
           (b = true ↔ key ∉ StdMap.keys m)).
Proof.
  intros Hwf. split; [| split].
  - intros Hkey.
    destruct (insert_absent key v m Hwf Hkey) as (m' & Hrun & Hwf' & Hin).
    exists m'. repeat split; try done; try apply Hin.
    + eapply insert_present; [done |]. apply Hin. by left.
    + apply get_present; [done |]. apply Hin. by left.
  - intros w output Hin. split.
    + by eapply insert_present.
    + by apply get_present.
  - destruct (absent_or_present key m Hwf) as [Hkey | [w Hin]].
    + destruct (insert_absent key v m Hwf Hkey) as (m' & Hrun & _).
      exists true, m'. tauto.
    + exists false, m. split; [by eapply insert_present |].
      apply keys_elem_of in Hin. split; [done | tauto].
Qed.

Lemma putIfAbsent_absent key v m :
  StdMap.wf m → key ∉ StdMap.keys m →
  ∃ m', body (putIfAbsent key v) m = Some (v, m') ∧ StdMap.wf m' ∧
        ∀ e, e ∈ m' ↔ e = (key, v) ∨ e ∈ m.
Proof.
  intros Hwf Hkey.
  destruct (search_absent key m Hwf Hkey)
    as (l & r & -> & Hl & Hr & Hfind & _ & Hins).
  exists (l ++ (key, v) :: r). method_body. rewrite Hfind, Hins. at_end.
  split; [done |]. split; [by apply wf_middle_2 |].
  intros e. apply elem_of_middle.
Qed.

Lemma putIfAbsent_present key v w m :
  StdMap.wf m → (key, w) ∈ m →
  body (putIfAbsent key v) m = Some (w, m).
Proof.
  intros Hwf Hin.
  destruct (search_present key w m Hwf Hin)
    as (l & r & -> & _ & _ & Hfind & _).
  method_body. rewrite Hfind. at_end. by rewrite deref_middle.
Qed.

(** C4: on an absent key [putIfAbsent(key, value)] inserts the pair and
    returns [value]; on a key present with value [w] it leaves the map
    as it was and returns [w]; and one of the two cases holds, never
    both. *)
Theorem putIfAbsent_spec key v m :
  StdMap.wf m →
  (key ∉ StdMap.keys m →
     ∃ m', body (putIfAbsent key v) m = Some (v, m') ∧ StdMap.wf m' ∧
           (∀ e, e ∈ m' ↔ e = (key, v) ∨ e ∈ m) ∧
           ∀ v2 output,
             body (get key output) m' = Some (true, v, m') ∧
             body (putIfAbsent key v2) m' = Some (v, m')) ∧
  (∀ w, (key, w) ∈ m → body (putIfAbsent key v) m = Some (w, m)) ∧
  (key ∉ StdMap.keys m ∨ ∃ w, (key, w) ∈ m) ∧
  ¬ ((key ∉ StdMap.keys m) ∧ (∃ w, (key, w) ∈ m)).
Proof.
  intros Hwf. repeat split.
  - intros Hkey.
    destruct (putIfAbsent_absent key v m Hwf Hkey)
      as (m' & Hrun & Hwf' & Hin).
    exists m'. repeat split; try done; try apply Hin.
    + apply get_present; [done |]. apply Hin. by left.
    + apply putIfAbsent_present; [done |]. apply Hin. by left.
  - intros w Hin. by apply putIfAbsent_present.
  - by apply absent_or_present.
  - intros [Hkey [w Hin%keys_elem_of]]. done.
Qed.

(** C6: [remove(key, expected)] removes the entry of [key] exactly when
    [key] is present and its value equals [expected], and returns true
    exactly then; on an absent key or another value it returns false and
    changes nothing. *)
Theorem remove_spec key expected m :
  StdMap.wf m →
  (∀ current, (key, current) ∈ m → current = expected →
     ∃ m', body (remove key expected) m = Some (true, m') ∧ StdMap.wf m' ∧
           (key ∉ StdMap.keys m') ∧
           (∀ e, e ∈ m' ↔ e ∈ m ∧ e ≠ (key, current)) ∧
           ∀ output, body (get key output) m' = Some (false, output, m')) ∧
  (∀ current, (key, current) ∈ m → current ≠ expected →
     body (remove key expected) m = Some (false, m)) ∧
  (key ∉ StdMap.keys m → body (remove key expected) m = Some (false, m)).
Proof.
  intros Hwf. split; [| split].
  - intros current Hin <-.
    destruct (search_present key current m Hwf Hin)
      as (l & r & -> & _ & _ & Hfind & _).
    destruct (erase_middle key current l r Hwf) as (Hwf' & Hkey & Hrest).
    exists (l ++ r). method_body. rewrite Hfind. at_end.
    rewrite deref_middle. cbn.
    rewrite (proj2 (equal_spec current current) eq_refl). cbn.
    rewrite erase_at_middle. cbn.
    split; [done |]. split; [done |]. split; [done |]. split; [done |].
    intros output. by apply get_absent.
  - intros current Hin Hne.
    destruct (search_present key current m Hwf Hin)
      as (l & r & -> & _ & _ & Hfind & _).
    method_body. rewrite Hfind. at_end. rewrite deref_middle. cbn.
    destruct (equal current expected) eqn:Heq; [| done].
    by apply equal_spec in Heq.
  - intros Hkey.
    destruct (search_absent key m Hwf Hkey)
      as (l & r & -> & _ & _ & Hfind & _).
    method_body. rewrite Hfind. by at_end.
Qed.

(** C7: the three-argument [replace(key, expected, newV)] sets the value
    of [key] to [newV] exactly when [key] is present and its value equals
    [expected], and returns true exactly then; on an absent key or
    another value it returns false and changes nothing. *)
Theorem replace3_spec key expected newV m :
  StdMap.wf m →
  (∀ current, (key, current) ∈ m → current = expected →
     ∃ m', body (replace3 key expected newV) m = Some (true, m') ∧
           StdMap.wf m' ∧ (key, newV) ∈ m' ∧
           StdMap.keys m' = StdMap.keys m ∧
           (∀ e, e.1 ≠ key → e ∈ m' ↔ e ∈ m) ∧
           ∀ output, body (get key output) m' = Some (true, newV, m')) ∧
  (∀ current, (key, current) ∈ m → current ≠ expected →
     body (replace3 key expected newV) m = Some (false, m)) ∧
  (key ∉ StdMap.keys m →
     body (replace3 key expected newV) m = Some (false, m)).
Proof.
  intros Hwf. split; [| split].
  - intros current Hin <-.
    destruct (search_present key current m Hwf Hin)
      as (l & r & -> & _ & _ & Hfind & _).
    destruct (overwrite_middle key newV current l r Hwf)
      as (Hwf' & Hnew & Hkeys & Hrest).
    exists (l ++ (key, newV) :: r). method_body. rewrite Hfind. at_end.
    rewrite deref_middle. cbn.
    rewrite (proj2 (equal_spec current current) eq_refl).
    rewrite assign_second_middle. cbn.
    split; [done |]. split; [done |]. split; [done |]. split; [done |].
    split; [done |]. intros output. by apply get_present.
  - intros current Hin Hne.
    destruct (search_present key current m Hwf Hin)
      as (l & r & -> & _ & _ & Hfind & _).
    method_body. rewrite Hfind. at_end. rewrite deref_middle. cbn.
    destruct (equal current expected) eqn:Heq; [| done].
    by apply equal_spec in Heq.
  - intros Hkey.
    destruct (search_absent key m Hwf Hkey)
      as (l & r & -> & _ & _ & Hfind & _).
    method_body. rewrite Hfind. by at_end.
Qed.

Lemma insertOrReplace_absent key v m :
  StdMap.wf m → key ∉ StdMap.keys m →
  ∃ m', body (insertOrReplace key v) m = Some (true, m') ∧ StdMap.wf m' ∧
        ∀ e, e ∈ m' ↔ e = (key, v) ∨ e ∈ m.
Proof.
  intros Hwf Hkey.
  destruct (search_absent key m Hwf Hkey)
    as (l & r & -> & Hl & Hr & Hfind & _ & Hins).
  exists (l ++ (key, v) :: r). method_body. rewrite Hfind, Hins. at_end.
  split; [done |]. split; [by apply wf_middle_2 |].
  intros e. apply elem_of_middle.
Qed.

Lemma insertOrReplace_present key v w m :
  StdMap.wf m → (key, w) ∈ m →
  ∃ m', body (insertOrReplace key v) m = Some (false, m') ∧
        StdMap.wf m' ∧ (key, v) ∈ m' ∧
        StdMap.keys m' = StdMap.keys m ∧
        ∀ e, e.1 ≠ key → e ∈ m' ↔ e ∈ m.
Proof.
  intros Hwf Hin.
  destruct (search_present key w m Hwf Hin)
    as (l & r & -> & _ & _ & Hfind & _).
  exists (l ++ (key, v) :: r). method_body. rewrite Hfind. at_end.
  rewrite assign_second_middle. cbn. split; [done |].
  by apply (overwrite_middle key v w).
Qed.

(** X23: the two-argument [insertOrReplace(key, value)] always takes one
    of two branches: on an absent key it inserts the pair and returns
    true, on a present key it overwrites the value and returns false; so a
    second call [insertOrReplace(key, v2)] returns false and [get(key)]
    then yields [v2]. *)
Theorem insertOrReplace_spec key v m :
  StdMap.wf m →
  (key ∉ StdMap.keys m →
     ∃ m', body (insertOrReplace key v) m = Some (true, m') ∧
           StdMap.wf m' ∧ ∀ e, e ∈ m' ↔ e = (key, v) ∨ e ∈ m) ∧
  (∀ w, (key, w) ∈ m →
     ∃ m', body (insertOrReplace key v) m = Some (false, m') ∧
           StdMap.wf m' ∧ (key, v) ∈ m' ∧
           StdMap.keys m' = StdMap.keys m ∧
           ∀ e, e.1 ≠ key → e ∈ m' ↔ e ∈ m) ∧
  (∀ v2 output,
     ∃ b m1 m2,
       body (insertOrReplace key v) m = Some (b, m1) ∧
       (b = true ↔ key ∉ StdMap.keys m) ∧
       body (get key output) m1 = Some (true, v, m1) ∧
       body (insertOrReplace key v2) m1 = Some (false, m2) ∧
       body (get key output) m2 = Some (true, v2, m2)).
Proof.
  intros Hwf. split; [| split].
  - by apply insertOrReplace_absent.
  - intros w. by apply insertOrReplace_present.
  - intros v2 output.
    assert (∃ b m1, body (insertOrReplace key v) m = Some (b, m1) ∧
              (b = true ↔ key ∉ StdMap.keys m) ∧
              StdMap.wf m1 ∧ (key, v) ∈ m1)
      as (b & m1 & Hrun & Hb & Hwf1 & Hin1).
    { destruct (absent_or_present key m Hwf) as [Hkey | [w Hin]].
      - destruct (insertOrReplace_absent key v m Hwf Hkey)
          as (m1 & Hrun & Hwf1 & Hin1).
        exists true, m1. repeat split; try done. apply Hin1. by left.
      - destruct (insertOrReplace_present key v w m Hwf Hin)
          as (m1 & Hrun & Hwf1 & Hin1 & _).
        exists false, m1. apply keys_elem_of in Hin.
        repeat split; try done. }
    destruct (insertOrReplace_present key v2 v m1 Hwf1 Hin1)
      as (m2 & Hrun2 & Hwf2 & Hin2 & _).
    exists b, m1, m2. repeat split; try done; try apply Hb.
    + by apply get_present.
    + by apply get_present.
Qed.

(** An iterator returned by [find] other than [end()] can be
    dereferenced, sorted map or not. *)
Lemma find_deref key m :
  StdMap.find key m ≠ StdMap.end_ m →
  is_Some (StdMap.deref (StdMap.find key m) m).
Proof.
  unfold StdMap.find, StdMap.hit, StdMap.deref.
  destruct (m !! StdMap.lower_bound key m) as [e|] eqn:Hlb; [| done].
  destruct (negb (less key e.1)); [| done].
  rewrite Hlb. eauto.
Qed.

Lemma empty_true m : StdMap.empty m = true ↔ m = [].
Proof.
  unfold StdMap.empty. rewrite bool_decide_eq_true. apply length_zero_iff_nil.
Qed.

(** The loop of [getValues], started anywhere in the map and with a
    destination range that lies inside [dest]. *)
Lemma getValues_loop_spec begin_ end_ it dest m :
  it ≤ length m → begin_ ≤ end_ → end_ ≤ length dest →
  getValues_loop begin_ end_ it dest m
  = Some (begin_ + (length m - it) `min` (end_ - begin_),
          take begin_ dest
          ++ take ((length m - it) `min` (end_ - begin_)) (drop it m)
          ++ drop (begin_ + (length m - it) `min` (end_ - begin_)) dest).
Proof.
  funelim (getValues_loop begin_ end_ it dest m); intros Hit' Hle Hlast;
    unfold StdMap.end_, StdMap.deref in *;
    match goal with
    | Hc : _ && _ = _ |- _ =>
        rename Hc into Hcond;
        first [ apply andb_true_iff in Hcond as [Hc1 Hc2];
                apply bool_decide_eq_true in Hc1, Hc2
              | apply andb_false_iff in Hcond ]
    end.
  - (* the range is full, or the map is exhausted *)
    assert ((length internal_map - it) `min` (end_ - begin_) = 0) as ->.
    { destruct Hcond as [Hc | Hc]; apply bool_decide_eq_false in Hc; lia. }
    by rewrite Nat.add_0_r, take_0, app_nil_l, take_drop.
  - (* one entry is copied *)
    destruct (lookup_lt_is_Some_2 dest begin_) as [x Hx]; [lia |].
    rewrite Hx. cbn.
    match goal with
    | IH : K * V → _ |- _ =>
        rewrite (IH e) by (rewrite ?length_insert; lia)
    end.
    replace ((length internal_map - it) `min` (end_ - begin_))
      with (S ((length internal_map - S it) `min` (end_ - S begin_)))
      by lia.
    set (n := (length internal_map - S it) `min` (end_ - S begin_)).
    rewrite (drop_S _ _ _ Hit). cbn.
    rewrite drop_insert_lt by lia.
    erewrite take_S_r by (apply list_lookup_insert_eq; lia).
    rewrite take_insert_ge by lia.
    rewrite Nat.add_succ_r, <- (assoc_L (++)). done.
  - (* the iterator is not at the end, so it can be dereferenced *)
    match goal with
    | Hnone : _ !! _ = None |- _ =>
        pose proof (proj1 (lookup_ge_None _ _) Hnone)
    end.
    lia.
Qed.

(** C9: for a map of [E] entries and a destination range of capacity
    [C = end_ - begin_], [getValues] copies the first [min E C] entries
    of the map, in ascending key order, to the start of the range,
    returns the position after the last one written, and leaves the map
    as it was. *)
Theorem getValues_spec begin_ end_ dest m :
  StdMap.wf m → begin_ ≤ end_ → end_ ≤ length dest →
  ∃ n, n = StdMap.size m `min` (end_ - begin_) ∧
       body (getValues begin_ end_ dest) m
       = Some (begin_ + n,
               take begin_ dest ++ take n m ++ drop (begin_ + n) dest,
               m) ∧
       StdMap.wf (take n m) ∧
       length (take n m) = n.
Proof.
  intros Hwf Hle Hlast. eexists. split; [done |].
  method_body. unfold StdMap.begin_, StdMap.size.
  rewrite getValues_loop_spec by lia. cbn.
  rewrite Nat.sub_0_r. split; [done |]. split.
  - rewrite <- (take_drop (length m `min` (end_ - begin_)) m) in Hwf.
    by apply StronglySorted_app_1_l in Hwf.
  - rewrite length_take. lia.
Qed.


(** Called with one object for both references, the assignment to
    [oldValue] comes first and the map keeps the value it had. *)
Lemma insertOrReplace3_aliased key x caller v w m :
  StdMap.wf m → caller !! x = Some v → (key, w) ∈ m →
  body (insertOrReplace3 key x x caller) m
  = Some (false, <[x := w]> caller, m).
Proof.
  intros Hwf Hx Hin.
  destruct (search_present key w m Hwf Hin)
    as (l & r & -> & _ & _ & Hfind & _).
  method_body. rewrite Hfind. at_end. rewrite deref_middle, Hx. cbn.
  rewrite list_lookup_insert_eq by by eapply lookup_lt_Some. cbn.
  by rewrite assign_second_middle.
Qed.

(** C10: [get], [getTail], [getHead] and [getAndEraseHead] always return,
    and when they return false (the key is absent, the map is empty) the
    object behind [output] holds what the caller put there, and the map
    is as it was. *)
Theorem output_kept_on_false key m (output : V) :
  (∃ b o m', body (get key output) m = Some (b, o, m') ∧
             (b = false ↔ StdMap.find key m = StdMap.end_ m) ∧
             (b = false → o = output ∧ m' = m)) ∧
  (∃ b o m', body (getTail output) m = Some (b, o, m') ∧
             (b = false ↔ m = []) ∧
             (b = false → o = output ∧ m' = m)) ∧
  (∃ b o m', body (getHead output) m = Some (b, o, m') ∧
             (b = false ↔ m = []) ∧
             (b = false → o = output ∧ m' = m)) ∧
  (∃ b o m', body (getAndEraseHead output) m = Some (b, o, m') ∧
             (b = false ↔ m = []) ∧
             (b = false → o = output ∧ m' = m)).
Proof.
  split; [| split; [| split]]; method_body.
  - case_bool_decide as Hend.
    + exists false, output, m. tauto.
    + destruct (find_deref key m Hend) as [e ->]. cbn.
      exists true, e.2, m. split; [done |]. split; [| done].
      split; [done | tauto].
  - destruct m as [|e m].
    + exists false, output, []. tauto.
    + destruct (proj2 (last_is_Some (e :: m))) as [e' He']; [done |].
      unfold StdMap.rbegin_deref. rewrite He'.
      exists true, e'.2, (e :: m). by repeat split.
  - destruct m as [|e m].
    + exists false, output, []. tauto.
    + exists true, e.2, (e :: m). by repeat split.
  - destruct m as [|e m].
    + exists false, output, []. tauto.
    + exists true, e.2, m. by repeat split.
Qed.

(** C1 (the code takes the other lock): the first statement of
    [getAndEraseHead] and of [eraseHead] declares a [std::shared_lock],
    the guard of the read-only methods, whereas [erase], [remove] and
    [clear] declare a [std::unique_lock].  Two calls that both erase the
    head can therefore hold the mutex at once, which no call of [erase]
    can. *)
Theorem head_erasers_declare_shared_lock (output : V) :
  guard (getAndEraseHead (K:=K) output) = Some shared_lock ∧
  guard (@eraseHead K V) = Some shared_lock ∧
  (∀ (key : K) (value : V),
     guard (erase (V:=V) key) = Some unique_lock ∧
     guard (remove key value) = Some unique_lock ∧
     guard (@clear K V) = Some unique_lock) ∧
  (∀ mu mu1,
     enter (getAndEraseHead (K:=K) output) mu = Some mu1 →
     is_Some (enter (getAndEraseHead (K:=K) output) mu1) ∧
     is_Some (enter (@eraseHead K V) mu1) ∧
     ∀ key, enter (erase (V:=V) key) mu1 = None) ∧
  ∃ mu1 mu2,
    enter (getAndEraseHead (K:=K) output) unlocked = Some mu1 ∧
    enter (@eraseHead K V) mu1 = Some mu2 ∧
    readers mu2 = 2.
Proof.
  split; [done |]. split; [done |]. split; [done |]. split.
  - intros mu mu1 Henter. unfold enter in *. cbn [guard] in *.
    method_body.
    destruct (shared_lock_admits mu mu1 Henter) as [Hshared Hunique].
    by repeat split.
  - exists {| writer := false; readers := 1 |},
           {| writer := false; readers := 2 |}.
    by repeat split.
Qed.
End Methods.

(** C5: on a non-empty map one call of [getAndEraseHead] returns the value
    of the minimum key and removes that entry and no other; on an empty map
    it returns false and leaves the map empty.  With keys 3, 1, 2 inserted
    in that order it returns the value of key 1 and leaves keys 2 and 3. *)
Theorem getAndEraseHead_spec {K V : Type} {HK : Less K}
    (m : list (K * V)) (output : V) :
  StdMap.wf m →
  (m ≠ [] →
     ∃ k v m', body (getAndEraseHead output) m = Some (true, v, m') ∧
               (k, v) ∈ m ∧
               (∀ e, e ∈ m → e = (k, v) ∨ less k e.1 = true) ∧
               StdMap.wf m' ∧
               (∀ e, e ∈ m' ↔ e ∈ m ∧ e ≠ (k, v)) ∧
               StdMap.size m = S (StdMap.size m')) ∧
  body (getAndEraseHead output) (@nil (K * V)) = Some (false, output, []) ∧
  (∀ a b c : V,
     body (insert 3%Z c) map_new = Some (true, [(3%Z, c)]) ∧
     body (insert 1%Z a) [(3%Z, c)] = Some (true, [(1%Z, a); (3%Z, c)]) ∧
     body (insert 2%Z b) [(1%Z, a); (3%Z, c)]
     = Some (true, [(1%Z, a); (2%Z, b); (3%Z, c)]) ∧
     body (getAndEraseHead output) [(1%Z, a); (2%Z, b); (3%Z, c)]
     = Some (true, a, [(2%Z, b); (3%Z, c)])).
Proof.
  intros Hwf. split; [| by repeat split].
  intros Hne. destruct m as [|[k v] m]; [done |].
  apply wf_cons in Hwf as [Habove Hwf]. cbn in Habove.
  exists k, v, m. split; [done |]. split; [by left |].
  rewrite Forall_forall in Habove.
  split; [| split; [done | split; [| done]]].
  - intros e [-> | He]%elem_of_cons; [by left | right; by apply Habove].
  - intros e. rewrite elem_of_cons. split.
    + intros He. split; [by right |]. intros ->.
      specialize (Habove _ He). cbn in Habove.
      by rewrite less_irrefl in Habove.
    + by intros [[-> | He] Hne'].
Qed.

(** C8 (the code misses a case): the overload of [insertOrReplace] with an
    out-parameter assigns [oldValue = it->second] before
    [it->second = newValue].  Called with one object for both references
    on a present key it therefore returns false and leaves the stored
    value as it was, where the two-argument overload, given the same key
    and value, overwrites it.  At the map [{1: 10, 3: 30}] with the object
    holding 7, [insertOrReplace(3, x, x)] leaves 30 under key 3 and
    [insertOrReplace(3, 7)] leaves 7. *)
Theorem insertOrReplace3_same_object_not_overwritten
    {K V : Type} {HK : Less K} {HV : EqualityComparable V} :
  (∀ (key : K) (x : nat) (caller : list V) (v w : V) (m : list (K * V)),
     StdMap.wf m → caller !! x = Some v → (key, w) ∈ m → v ≠ w →
     ∃ m2, body (insertOrReplace key v) m = Some (false, m2) ∧
           (key, v) ∈ m2 ∧
           body (insertOrReplace3 key x x caller) m
           = Some (false, <[x := w]> caller, m) ∧
           ((key, v) ∉ m) ∧ m2 ≠ m) ∧
  body (insertOrReplace3 3%Z 0 0 [7%Z]) [(1%Z, 10%Z); (3%Z, 30%Z)]
  = Some (false, [30%Z], [(1%Z, 10%Z); (3%Z, 30%Z)]) ∧
  body (insertOrReplace 3%Z 7%Z) [(1%Z, 10%Z); (3%Z, 30%Z)]
  = Some (false, [(1%Z, 10%Z); (3%Z, 7%Z)]) ∧
  (∀ output : Z,
     body (get 3%Z output) [(1%Z, 10%Z); (3%Z, 30%Z)]
     = Some (true, 30%Z, [(1%Z, 10%Z); (3%Z, 30%Z)])).
Proof.
  split; [| by repeat split].
  intros key x caller v w m Hwf Hx Hin Hne.
  destruct (insertOrReplace_present key v w m Hwf Hin)
    as (m2 & Hrun2 & _ & Hin2 & _).
  assert ((key, v) ∉ m) as Hnot.
  { intros Hv. by destruct (Hne (wf_functional key v w m Hwf Hv Hin)). }
  exists m2. split; [done |]. split; [done |].
  split; [by eapply insertOrReplace3_aliased |]. split; [done |].
  by intros ->.
Qed.

(** ** The theorems at concrete maps with integer keys and values *)

(** Closes membership, absence and sortedness goals on literal maps. *)
Ltac literal :=
  lazymatch goal with
  | |- StdMap.wf _ =>
      unfold StdMap.wf, StdMap.key_lt; repeat constructor
  | |- _ ∉ _ =>
      cbn; rewrite ?not_elem_of_cons; repeat split;
      first [ discriminate | apply not_elem_of_nil ]
  | |- _ ∈ _ =>
      cbn; rewrite ?elem_of_cons; auto 10
  end.

Lemma contains_true_iff_absent_witness :
  ∃ b, body (contains 2%Z) [(1%Z, 10%Z); (3%Z, 30%Z)]
       = Some (b, [(1%Z, 10%Z); (3%Z, 30%Z)]) ∧
       (b = true ↔
        StdMap.find 2%Z [(1%Z, 10%Z); (3%Z, 30%Z)]
        = StdMap.end_ [(1%Z, 10%Z); (3%Z, 30%Z)]) ∧
       (b = true ↔ 2%Z ∉ StdMap.keys [(1%Z, 10%Z); (3%Z, 30%Z)]).
Proof.
  apply (contains_true_iff_absent 2%Z [(1%Z, 10%Z); (3%Z, 30%Z)]). literal.
Defined.

Lemma insert_only_if_absent_witness :
  ∃ b m', body (insert 2%Z 20%Z) [(1%Z, 10%Z); (3%Z, 30%Z)] = Some (b, m') ∧
          (b = true ↔ 2%Z ∉ StdMap.keys [(1%Z, 10%Z); (3%Z, 30%Z)]).
Proof.
  apply (insert_only_if_absent 2%Z 20%Z [(1%Z, 10%Z); (3%Z, 30%Z)]). literal.
Defined.

Lemma putIfAbsent_spec_witness :
  body (putIfAbsent 3%Z 31%Z) [(1%Z, 10%Z); (3%Z, 30%Z)]
  = Some (30%Z, [(1%Z, 10%Z); (3%Z, 30%Z)]).
Proof.
  apply (putIfAbsent_spec 3%Z 31%Z [(1%Z, 10%Z); (3%Z, 30%Z)]);
    literal.
Defined.



Lemma getAndEraseHead_spec_witness :
  ∃ k v m',
    body (getAndEraseHead 0%Z) [(1%Z, 10%Z); (2%Z, 20%Z); (3%Z, 30%Z)]
    = Some (true, v, m') ∧
    (k, v) ∈ [(1%Z, 10%Z); (2%Z, 20%Z); (3%Z, 30%Z)] ∧
    (∀ e, e ∈ [(1%Z, 10%Z); (2%Z, 20%Z); (3%Z, 30%Z)] →
          e = (k, v) ∨ less k e.1 = true) ∧
    StdMap.wf m' ∧
    (∀ e, e ∈ m' ↔
          e ∈ [(1%Z, 10%Z); (2%Z, 20%Z); (3%Z, 30%Z)] ∧ e ≠ (k, v)) ∧
    StdMap.size [(1%Z, 10%Z); (2%Z, 20%Z); (3%Z, 30%Z)]
    = S (StdMap.size m').
Proof.
  apply (getAndEraseHead_spec [(1%Z, 10%Z); (2%Z, 20%Z); (3%Z, 30%Z)] 0%Z);
    [literal | discriminate].
Defined.

Lemma remove_spec_witness :
  ∃ m', body (remove 3%Z 30%Z) [(1%Z, 10%Z); (3%Z, 30%Z)] = Some (true, m') ∧
        StdMap.wf m' ∧ (3%Z ∉ StdMap.keys m') ∧
        (∀ e, e ∈ m' ↔ e ∈ [(1%Z, 10%Z); (3%Z, 30%Z)] ∧ e ≠ (3%Z, 30%Z)) ∧
        ∀ output, body (get 3%Z output) m' = Some (false, output, m').
Proof.
  apply (remove_spec 3%Z 30%Z [(1%Z, 10%Z); (3%Z, 30%Z)]);
    [literal | literal | reflexivity].
Defined.

Lemma replace3_spec_witness :
  ∃ m', body (replace3 3%Z 30%Z 33%Z) [(1%Z, 10%Z); (3%Z, 30%Z)]
        = Some (true, m') ∧
        StdMap.wf m' ∧ (3%Z, 33%Z) ∈ m' ∧
        StdMap.keys m' = StdMap.keys [(1%Z, 10%Z); (3%Z, 30%Z)] ∧
        (∀ e, e.1 ≠ 3%Z → e ∈ m' ↔ e ∈ [(1%Z, 10%Z); (3%Z, 30%Z)]) ∧
        ∀ output, body (get 3%Z output) m' = Some (true, 33%Z, m').
Proof.
  refine (proj1 (replace3_spec 3%Z 30%Z 33%Z [(1%Z, 10%Z); (3%Z, 30%Z)] _)
            30%Z _ eq_refl); literal.
Defined.

Lemma insertOrReplace_spec_witness :
  ∃ b m1 m2,
    body (insertOrReplace 2%Z 20%Z) [(1%Z, 10%Z); (3%Z, 30%Z)]
    = Some (b, m1) ∧
    (b = true ↔ 2%Z ∉ StdMap.keys [(1%Z, 10%Z); (3%Z, 30%Z)]) ∧
    body (get 2%Z 0%Z) m1 = Some (true, 20%Z, m1) ∧
    body (insertOrReplace 2%Z 21%Z) m1 = Some (false, m2) ∧
    body (get 2%Z 0%Z) m2 = Some (true, 21%Z, m2).
Proof.
  apply (insertOrReplace_spec 2%Z 20%Z [(1%Z, 10%Z); (3%Z, 30%Z)]). literal.
Defined.

Lemma getValues_spec_witness :
  ∃ n, n = StdMap.size [(1%Z, 10%Z); (2%Z, 20%Z); (3%Z, 30%Z)] `min` (3 - 1) ∧
       body (getValues 1 3 [(0%Z, 0%Z); (0%Z, 0%Z); (0%Z, 0%Z); (0%Z, 0%Z)])
         [(1%Z, 10%Z); (2%Z, 20%Z); (3%Z, 30%Z)]
       = Some (1 + n,
               take 1 [(0%Z, 0%Z); (0%Z, 0%Z); (0%Z, 0%Z); (0%Z, 0%Z)]
               ++ take n [(1%Z, 10%Z); (2%Z, 20%Z); (3%Z, 30%Z)]
               ++ drop (1 + n)
                    [(0%Z, 0%Z); (0%Z, 0%Z); (0%Z, 0%Z); (0%Z, 0%Z)],
               [(1%Z, 10%Z); (2%Z, 20%Z); (3%Z, 30%Z)]) ∧
       StdMap.wf (take n [(1%Z, 10%Z); (2%Z, 20%Z); (3%Z, 30%Z)]) ∧
       length (take n [(1%Z, 10%Z); (2%Z, 20%Z); (3%Z, 30%Z)]) = n.
Proof.
  apply (getValues_spec 1 3
           [(0%Z, 0%Z); (0%Z, 0%Z); (0%Z, 0%Z); (0%Z, 0%Z)]
           [(1%Z, 10%Z); (2%Z, 20%Z); (3%Z, 30%Z)]);
    [literal | cbn; lia | cbn; lia].
Defined.

(** ** Further facts about std::map *)

Section MoreStdMapFacts.
Context {K V : Type} {HK : Less K}.
Implicit Types (m l r : list (K * V)) (key : K) (e : K * V).

(** The first entry of a sorted sequence has the least key. *)
Lemma wf_head_min e m e' :
  StdMap.wf (e :: m) → e' ∈ e :: m → e' = e ∨ less e.1 e'.1 = true.
Proof.
  intros [Habove _]%wf_cons [-> | Hin]%elem_of_cons; [by left | right].
  rewrite Forall_forall in Habove. by apply Habove.
Qed.

(** The last entry of a sorted sequence has the greatest key. *)
Lemma wf_last_max m e e' :
  StdMap.wf m → last m = Some e → e' ∈ m → e' = e ∨ less e'.1 e.1 = true.
Proof.
  intros Hwf [l ->]%last_Some Hin.
  apply wf_middle in Hwf as (_ & Hbelow & _).
  apply elem_of_app in Hin as [Hin | Hin%list_elem_of_singleton];
    [right | by left].
  rewrite Forall_forall in Hbelow. by apply Hbelow.
Qed.

(** No key occurs twice in a sorted sequence. *)
Lemma wf_NoDup_keys m : StdMap.wf m → NoDup (StdMap.keys m).
Proof.
  induction m as [|e m IH]; [constructor |].
  intros [Habove Hwf]%wf_cons. cbn. constructor; [| by apply IH].
  by apply above_not_key.
Qed.

(** A sorted sequence is determined by the set of its entries. *)
Lemma wf_ext m1 m2 :
  StdMap.wf m1 → StdMap.wf m2 → (∀ e, e ∈ m1 ↔ e ∈ m2) → m1 = m2.
Proof.
  intros Hwf1 Hwf2 Hsame.
  apply (StronglySorted_unique_strong StdMap.key_lt); [| done | done |].
  - intros x1 x2 _ _ H12 H21. unfold StdMap.key_lt in *.
    pose proof (less_trans _ _ _ H12 H21) as Hxx.
    by rewrite less_irrefl in Hxx.
  - apply NoDup_Permutation; [| | done];
      eapply NoDup_fmap_1; by apply wf_NoDup_keys.
Qed.

Lemma size_middle l e r :
  StdMap.size (l ++ e :: r) = S (StdMap.size (l ++ r)).
Proof. unfold StdMap.size. rewrite !length_app. cbn. lia. Qed.
End MoreStdMapFacts.

(** ** Further properties of the methods *)

Section Lookups.
Context {K V : Type} {HK : Less K} {HV : EqualityComparable V}.
Implicit Types (m : list (K * V)) (key : K) (e : K * V).

(** X1: [get(key, output)] stores in [output] the value the map holds for
    [key] and returns true; on an absent key it returns false and leaves
    [output]; it never changes the map, and a true result always names an
    entry of the map. *)
Theorem get_returns_stored_value key m (output : V) :
  StdMap.wf m →
  (∀ v, (key, v) ∈ m → body (get key output) m = Some (true, v, m)) ∧
  (key ∉ StdMap.keys m → body (get key output) m = Some (false, output, m)) ∧
  (∀ b o m', body (get key output) m = Some (b, o, m') →
             m' = m ∧ (b = true → (key, o) ∈ m) ∧
             (b = false → key ∉ StdMap.keys m)).
Proof.
  intros Hwf. split; [| split].
  - intros v Hin. by apply get_present.
  - intros Hkey. by apply get_absent.
  - intros b o m' Hrun.
    destruct (absent_or_present key m Hwf) as [Hkey | [w Hin]].
    + rewrite (get_absent key m output Hwf Hkey) in Hrun.
      by injection Hrun as <- <- <-.
    + rewrite (get_present key w m output Hwf Hin) in Hrun.
      injection Hrun as <- <- <-. by repeat split.
Qed.

(** X2: on a non-empty map [getHead] returns the value of the least key
    and leaves the map as it was. *)
Theorem getHead_least_key m (output : V) :
  StdMap.wf m → m ≠ [] →
  ∃ k v, body (getHead output) m = Some (true, v, m) ∧ (k, v) ∈ m ∧
         ∀ e, e ∈ m → e = (k, v) ∨ less k e.1 = true.
Proof.
  intros Hwf Hne. destruct m as [|[k v] m]; [done |].
  exists k, v. split; [done |]. split; [by left |].
  intros e He. by apply (wf_head_min (k, v) m).
Qed.

(** X3: on a non-empty map [getTail] returns the value of the greatest key
    and leaves the map as it was. *)
Theorem getTail_greatest_key m (output : V) :
  StdMap.wf m → m ≠ [] →
  ∃ k v, body (getTail output) m = Some (true, v, m) ∧ (k, v) ∈ m ∧
         ∀ e, e ∈ m → e = (k, v) ∨ less e.1 k = true.
Proof.
  intros Hwf Hne.
  destruct (proj2 (last_is_Some m) Hne) as [[k v] Hlast].
  exists k, v. split; [| split].
  - method_body. unfold StdMap.rbegin_deref. rewrite Hlast.
    destruct m; [done |]. done.
  - by apply last_Some_elem_of.
  - intros e He. by apply (wf_last_max m (k, v)).
Qed.

(** X4: on a non-empty map [eraseHead] removes the entry of the least key,
    and no other, and returns true; on an empty map it returns false. *)
Theorem eraseHead_spec m :
  StdMap.wf m →
  (m ≠ [] →
     ∃ k v m', body eraseHead m = Some (true, m') ∧ (k, v) ∈ m ∧
               (∀ e, e ∈ m → e = (k, v) ∨ less k e.1 = true) ∧
               StdMap.wf m' ∧ (k ∉ StdMap.keys m') ∧
               (∀ e, e ∈ m' ↔ e ∈ m ∧ e ≠ (k, v)) ∧
               StdMap.size m = S (StdMap.size m')) ∧
  (m = [] → body eraseHead m = Some (false, m)).
Proof.
  intros Hwf. split; [| by intros ->].
  intros Hne. destruct m as [|[k v] m]; [done |].
  destruct (erase_middle k v [] m Hwf) as (Hwf' & Hkey & Hrest).
  exists k, v, m. split; [done |]. split; [by left |].
  split; [intros e He; by apply (wf_head_min (k, v) m) |].
  by repeat split; try apply Hrest.
Qed.

(** X5: [getAndEraseHead] does what [getHead] followed by [eraseHead]
    does when nothing runs in between: same result, same [output], same
    map, on every map. *)
Theorem getAndEraseHead_is_getHead_then_eraseHead m (output : V) :
  body (getAndEraseHead output) m
  = '(b, o, m1) ← body (getHead output) m;
    '(b', m2) ← body eraseHead m1;
    Some (b && b', o, m2).
Proof. by destruct m. Qed.

(** X6: [erase(key)] removes the entry of a present key, and no other, and
    returns 1; on an absent key it returns 0 and changes nothing. *)
Theorem erase_spec key m :
  StdMap.wf m →
  (∀ w, (key, w) ∈ m →
     ∃ m', body (erase key) m = Some (1, m') ∧ StdMap.wf m' ∧
           (key ∉ StdMap.keys m') ∧
           (∀ e, e ∈ m' ↔ e ∈ m ∧ e ≠ (key, w)) ∧
           StdMap.size m = S (StdMap.size m') ∧
           ∀ output : V, body (get key output) m' = Some (false, output, m')) ∧
  (key ∉ StdMap.keys m → body (erase key) m = Some (0, m)).
Proof.
  intros Hwf. split.
  - intros w Hin.
    destruct (search_present key w m Hwf Hin)
      as (l & r & -> & _ & _ & _ & Herase & _).
    destruct (erase_middle key w l r Hwf) as (Hwf' & Hkey & Hrest).
    exists (l ++ r). method_body. rewrite Herase.
    split; [done |]. split; [done |]. split; [done |]. split; [done |].
    split; [apply size_middle |]. intros output. by apply get_absent.
  - intros Hkey.
    destruct (search_absent key m Hwf Hkey)
      as (l & r & -> & _ & _ & _ & Herase & _).
    method_body. by rewrite Herase.
Qed.

(** X7: [size] returns the number of keys of the map, no key counted twice;
    [sizeNoThreadSafe] returns the same number; [empty] returns true
    exactly when that number is 0; an [insert] that succeeds raises it by
    one and an [insert] that fails leaves it. *)
Theorem size_counts_keys key v m :
  StdMap.wf m →
  NoDup (StdMap.keys m) ∧
  body size m = Some (length (StdMap.keys m), m) ∧
  body sizeNoThreadSafe m = body size m ∧
  (∃ b, body empty m = Some (b, m) ∧ (b = true ↔ StdMap.keys m = [])) ∧
  ∃ b n m',
    body (insert key v) m = Some (b, m') ∧ body size m' = Some (n, m') ∧
    (b = true → n = S (length (StdMap.keys m))) ∧
    (b = false → n = length (StdMap.keys m)).
Proof.
  intros Hwf. split; [by apply wf_NoDup_keys |].
  split; [method_body; unfold StdMap.size, StdMap.keys;
          by rewrite length_fmap |].
  split; [done |]. split.
  - exists (StdMap.empty m). split; [done |]. rewrite empty_true.
    unfold StdMap.keys. split; [by intros -> | apply fmap_nil_inv].
  - by_search key m Hwf.
    + exists true, (S (length (l ++ r))), (l ++ (key, v) :: r).
      unfold StdMap.keys. rewrite length_fmap, size_middle.
      by repeat split.
    + exists false, (length (l ++ (key, w) :: r)), (l ++ (key, w) :: r).
      unfold StdMap.keys. rewrite length_fmap. by repeat split.
Qed.

(** X8: after [clear], as in a map made by the default constructor,
    nothing is found: [size] is 0, [empty] is true, every lookup and every
    erasure reports absence and leaves [output], and [contains] (whose
    sense is inverted) returns true. *)
Theorem clear_leaves_nothing key m (output : V) :
  ∃ m', body clear m = Some (tt, m') ∧ m' = map_new ∧
        body size m' = Some (0, m') ∧
        body empty m' = Some (true, m') ∧
        body (get key output) m' = Some (false, output, m') ∧
        body (getHead output) m' = Some (false, output, m') ∧
        body (getTail output) m' = Some (false, output, m') ∧
        body (getAndEraseHead output) m' = Some (false, output, m') ∧
        body eraseHead m' = Some (false, m') ∧
        body (erase key) m' = Some (0, m') ∧
        body (contains key) m' = Some (true, m').
Proof. exists []. by repeat split. Qed.

(** X9: the two-argument [replace(key, value)] only updates: on a present
    key it sets the value, keeps every key and every other entry, and
    returns true; on an absent key it returns false and inserts nothing. *)
Theorem replace_only_updates key v m :
  StdMap.wf m →
  (∀ w, (key, w) ∈ m →
     ∃ m', body (replace key v) m = Some (true, m') ∧ StdMap.wf m' ∧
           (key, v) ∈ m' ∧ StdMap.keys m' = StdMap.keys m ∧
           (∀ e, e.1 ≠ key → e ∈ m' ↔ e ∈ m) ∧
           ∀ output, body (get key output) m' = Some (true, v, m')) ∧
  (key ∉ StdMap.keys m → body (replace key v) m = Some (false, m)).
Proof.
  intros Hwf. split.
  - intros w Hin.
    destruct (search_present key w m Hwf Hin)
      as (l & r & -> & _ & _ & Hfind & _).
    destruct (overwrite_middle key v w l r Hwf)
      as (Hwf' & Hnew & Hkeys & Hrest).
    exists (l ++ (key, v) :: r). method_body. rewrite Hfind. at_end.
    rewrite assign_second_middle. cbn.
    split; [done |]. split; [done |]. split; [done |]. split; [done |].
    split; [done |]. intros output. by apply get_present.
  - intros Hkey.
    destruct (search_absent key m Hwf Hkey)
      as (l & r & -> & _ & _ & Hfind & _).
    method_body. rewrite Hfind. by at_end.
Qed.


(** X11: [insertOrReplace(key, x, x)], one object passed for both
    references, on a present key: [oldValue = it->second] overwrites the
    new value before it is stored, so the map keeps the value it had and
    the object receives it. *)
Theorem insertOrReplace3_same_object_keeps_old_value
    key x caller v w m (output : V) :
  StdMap.wf m → caller !! x = Some v → (key, w) ∈ m →
  body (insertOrReplace3 key x x caller) m
  = Some (false, <[x := w]> caller, m) ∧
  (<[x := w]> caller) !! x = Some w ∧
  body (get key output) m = Some (true, w, m).
Proof.
  intros Hwf Hx Hin. split; [by eapply insertOrReplace3_aliased |].
  split; [apply list_lookup_insert_eq; by eapply lookup_lt_Some |].
  by apply get_present.
Qed.

(** X12: keys stay unique.  In a sorted store no key occurs twice and a
    key has one value; the store of a new map is sorted, and every method
    that changes the store runs without undefined behaviour on a sorted
    store and hands back a sorted store. *)
Theorem keys_stay_unique key (v v' output : V) :
  (∀ m, StdMap.wf m →
        NoDup (StdMap.keys m) ∧
        ∀ k a b, (k, a) ∈ m → (k, b) ∈ m → a = b) ∧
  StdMap.wf (@map_new K V) ∧
  sound (insert key v) ∧ sound (erase (V:=V) key) ∧ sound (@clear K V) ∧
  sound (putIfAbsent key v) ∧ sound (remove key v) ∧
  sound (replace key v) ∧ sound (insertOrReplace key v) ∧
  sound (replace3 key v v') ∧ sound (@eraseHead K V) ∧
  sound (getAndEraseHead (K:=K) output).
Proof.
  split; [| split; [apply wf_nil | apply mutators_sound]].
  intros m Hwf. split; [by apply wf_NoDup_keys |].
  intros k a b. by apply wf_functional.
Qed.
End Lookups.

Section Compositions.
Context {K V : Type} {HK : Less K} {HV : EqualityComparable V}.
Implicit Types (m : list (K * V)) (key : K) (e : K * V).

Lemma elem_of_keys key m : key ∈ StdMap.keys m ↔ ∃ v, (key, v) ∈ m.
Proof.
  unfold StdMap.keys. rewrite list_elem_of_fmap. split.
  - intros [[k v] [-> Hin]]. by exists v.
  - intros [v Hin]. by exists (key, v).
Qed.

(** What [insert] returns and leaves, present key or not. *)
Lemma insert_result key v m :
  StdMap.wf m →
  ∃ b m', body (insert key v) m = Some (b, m') ∧ StdMap.wf m' ∧
          (b = true ↔ key ∉ StdMap.keys m) ∧
          ∀ e, e ∈ m' ↔ e ∈ m ∨ (b = true ∧ e = (key, v)).
Proof.
  intros Hwf. destruct (absent_or_present key m Hwf) as [Hkey | [w Hin]].
  - destruct (insert_absent key v m Hwf Hkey) as (m' & Hrun & Hwf' & Hin').
    exists true, m'. split; [done |]. split; [done |]. split; [done |].
    intros e. rewrite Hin'. tauto.
  - exists false, m. split; [by eapply insert_present |]. split; [done |].
    apply keys_elem_of in Hin. split; [done |]. intros e.
    split; [tauto | by intros [? | [? _]]].
Qed.

(** X13: [insert] and [erase] undo each other: inserting an absent key and
    erasing it gives back the map, and so does erasing a present key and
    inserting it again with the value it had. *)
Theorem insert_erase_round_trip key v m :
  StdMap.wf m →
  (key ∉ StdMap.keys m →
     ∃ m', body (insert key v) m = Some (true, m') ∧
           body (erase key) m' = Some (1, m)) ∧
  (∀ w, (key, w) ∈ m →
     ∃ m', body (erase key) m = Some (1, m') ∧
           body (insert key w) m' = Some (true, m)).
Proof.
  intros Hwf. split.
  - intros Hkey.
    destruct (insert_absent key v m Hwf Hkey) as (m' & Hrun & Hwf' & Hin').
    exists m'. split; [done |].
    assert ((key, v) ∈ m') as Hnew by (apply Hin'; by left).
    destruct (search_present key v m' Hwf' Hnew)
      as (l & r & -> & _ & _ & _ & Herase & _).
    destruct (erase_middle key v l r Hwf') as (Hwf'' & _ & Hrest).
    method_body. rewrite Herase. do 3 f_equal.
    apply wf_ext; [done | done |]. intros e. rewrite Hrest, Hin'.
    split; [by intros [[-> | He] Hne] |].
    intros He. split; [by right |]. intros ->. by apply keys_elem_of in He.
  - intros w Hin.
    destruct (search_present key w m Hwf Hin)
      as (l & r & -> & _ & _ & _ & Herase & _).
    destruct (erase_middle key w l r Hwf) as (Hwf' & Hkey & Hrest).
    exists (l ++ r). split; [method_body; by rewrite Herase |].
    destruct (insert_absent key w (l ++ r) Hwf' Hkey)
      as (m' & Hrun & Hwf'' & Hin').
    rewrite Hrun. do 3 f_equal.
    apply wf_ext; [done | done |]. intros e. rewrite Hin', elem_of_middle.
    done.
Qed.

(** X14: [putIfAbsent] returns the value the map holds for the key once
    the call is over: a [get] that follows yields what it returned, which
    is [value] when the key was absent and the value already there when it
    was present. *)
Theorem putIfAbsent_returns_final_value key v m (output : V) :
  StdMap.wf m →
  ∃ r m', body (putIfAbsent key v) m = Some (r, m') ∧
          body (get key output) m' = Some (true, r, m') ∧
          (((key ∉ StdMap.keys m) ∧ r = v) ∨ ((key, r) ∈ m ∧ m' = m)).
Proof.
  intros Hwf. destruct (absent_or_present key m Hwf) as [Hkey | [w Hin]].
  - destruct (putIfAbsent_absent key v m Hwf Hkey)
      as (m' & Hrun & Hwf' & Hin').
    exists v, m'. split; [done |]. split; [| by left].
    apply get_present; [done |]. apply Hin'. by left.
  - exists w, m. split; [by apply putIfAbsent_present |].
    split; [by apply get_present | by right].
Qed.

(** X15: on every map [contains(key)] returns the negation of what
    [get(key, _)] returns: true when the lookup fails, false when it
    succeeds. *)
Theorem contains_negates_get key m (output : V) :
  ∃ b o, body (get key output) m = Some (b, o, m) ∧
         body (contains key) m = Some (negb b, m).
Proof.
  method_body. case_bool_decide as Hend.
  - by exists false, output.
  - destruct (find_deref key m Hend) as [e ->]. by exists true, e.2.
Qed.

(** X19: the compound methods are the simple ones under a test.  On an
    absent key [insertOrReplace] is [insert] and [putIfAbsent] leaves the
    store [insert] leaves; on a key present with value [w],
    [insertOrReplace] and [replace(key, w, v)] leave the store
    [replace(key, v)] leaves, and [remove(key, w)] the store [erase(key)]
    leaves. *)
Theorem compound_methods_reduce key v m :
  StdMap.wf m →
  (key ∉ StdMap.keys m →
     ∃ m', body (insert key v) m = Some (true, m') ∧
           body (insertOrReplace key v) m = Some (true, m') ∧
           body (putIfAbsent key v) m = Some (v, m')) ∧
  (∀ w, (key, w) ∈ m →
     (∃ m', body (replace key v) m = Some (true, m') ∧
            body (insertOrReplace key v) m = Some (false, m') ∧
            body (replace3 key w v) m = Some (true, m')) ∧
     (∃ m', body (erase key) m = Some (1, m') ∧
            body (remove key w) m = Some (true, m'))).
Proof.
  intros Hwf. split.
  - intros Hkey.
    destruct (search_absent key m Hwf Hkey)
      as (l & r & -> & _ & _ & Hfind & _ & Hins).
    exists (l ++ (key, v) :: r). method_body. rewrite Hfind, Hins.
    do 2 at_end. cbn. done.
  - intros w Hin.
    destruct (search_present key w m Hwf Hin)
      as (l & r & -> & _ & _ & Hfind & Herase & _).
    pose proof (proj2 (equal_spec w w) eq_refl) as Heq.
    split.
    + exists (l ++ (key, v) :: r). method_body. rewrite Hfind. at_end.
      rewrite deref_middle, assign_second_middle. cbn. by rewrite Heq.
    + exists (l ++ r). method_body. rewrite Hfind, Herase. at_end.
      rewrite deref_middle. cbn. rewrite Heq. cbn.
      by rewrite erase_at_middle.
Qed.

(** X20: writing a value twice is writing it once.  After
    [insertOrReplace(key, v)] a second [insertOrReplace(key, v)] and a
    [replace(key, v)] both leave the map as it is. *)
Theorem insertOrReplace_idempotent key v m :
  StdMap.wf m →
  ∃ b m', body (insertOrReplace key v) m = Some (b, m') ∧
          body (insertOrReplace key v) m' = Some (false, m') ∧
          body (replace key v) m' = Some (true, m').
Proof.
  intros Hwf.
  assert (∃ b m', body (insertOrReplace key v) m = Some (b, m') ∧
            StdMap.wf m' ∧ (key, v) ∈ m') as (b & m' & Hrun & Hwf' & Hin').
  { destruct (absent_or_present key m Hwf) as [Hkey | [w Hin]].
    - destruct (insertOrReplace_absent key v m Hwf Hkey)
        as (m' & Hrun & Hwf' & Hin').
      exists true, m'. split; [done |]. split; [done |]. apply Hin'. by left.
    - destruct (insertOrReplace_present key v w m Hwf Hin)
        as (m' & Hrun & Hwf' & Hin' & _).
      by exists false, m'. }
  exists b, m'. split; [done |].
  destruct (search_present key v m' Hwf' Hin')
    as (l & r & -> & _ & _ & Hfind & _).
  method_body. rewrite Hfind. at_end. by rewrite assign_second_middle.
Qed.

(** X21: insertion order is irrelevant.  Two [insert]s with different keys
    give the same results and the same map in either order. *)
Theorem insert_commutes k1 k2 v1 v2 m :
  StdMap.wf m → k1 ≠ k2 →
  ('(b1, m1) ← body (insert k1 v1) m;
   '(b2, m2) ← body (insert k2 v2) m1;
   Some (b1, b2, m2))
  = ('(b2, m1) ← body (insert k2 v2) m;
     '(b1, m2) ← body (insert k1 v1) m1;
     Some (b1, b2, m2)).
Proof.
  intros Hwf Hne.
  destruct (insert_result k1 v1 m Hwf) as (b1 & m1 & Hrun1 & Hwf1 & Hb1 & Hin1).
  destruct (insert_result k2 v2 m1 Hwf1)
    as (b2 & m12 & Hrun12 & Hwf12 & Hb12 & Hin12).
  destruct (insert_result k2 v2 m Hwf) as (b2' & m2 & Hrun2 & Hwf2 & Hb2 & Hin2).
  destruct (insert_result k1 v1 m2 Hwf2)
    as (b1' & m21 & Hrun21 & Hwf21 & Hb21 & Hin21).
  rewrite Hrun1, Hrun2. cbn -[insert]. rewrite Hrun12, Hrun21. cbn.
  assert (k2 ∈ StdMap.keys m1 ↔ k2 ∈ StdMap.keys m) as Hk2.
  { rewrite !elem_of_keys. setoid_rewrite Hin1. split.
    - intros [v [Hin | [_ [= ? ?]]]]; [by exists v | done].
    - intros [v Hin]. exists v. by left. }
  assert (k1 ∈ StdMap.keys m2 ↔ k1 ∈ StdMap.keys m) as Hk1.
  { rewrite !elem_of_keys. setoid_rewrite Hin2. split.
    - intros [v [Hin | [_ [= ? ?]]]]; [by exists v | done].
    - intros [v Hin]. exists v. by left. }
  assert (b1' = b1) as ->.
  { apply Bool.eq_true_iff_eq. by rewrite Hb21, Hb1, Hk1. }
  assert (b2' = b2) as ->.
  { apply Bool.eq_true_iff_eq. by rewrite Hb2, Hb12, Hk2. }
  do 3 f_equal. apply wf_ext; [done | done |].
  intros e. rewrite Hin12, Hin1, Hin21, Hin2. tauto.
Qed.

(** X22: successive calls of [getAndEraseHead] hand out the entries in
    ascending key order: on a map of two entries or more the second call
    returns the value of a key greater than the key of the first, and the
    two entries are gone. *)
Theorem getAndEraseHead_twice_ascending m (output : V) :
  StdMap.wf m → 2 ≤ StdMap.size m →
  ∃ k1 v1 k2 v2 m1 m2,
    body (getAndEraseHead output) m = Some (true, v1, m1) ∧
    body (getAndEraseHead v1) m1 = Some (true, v2, m2) ∧
    (k1, v1) ∈ m ∧ (k2, v2) ∈ m ∧ less k1 k2 = true ∧
    (∀ e, e ∈ m2 ↔ e ∈ m ∧ e ≠ (k1, v1) ∧ e ≠ (k2, v2)) ∧
    StdMap.size m = S (S (StdMap.size m2)).
Proof.
  intros Hwf Hsize.
  destruct m as [|[k1 v1] [|[k2 v2] m2]]; cbn in Hsize; [lia | lia |].
  pose proof Hwf as [Habove1 Hwf1]%wf_cons.
  pose proof Hwf1 as [Habove2 Hwf2]%wf_cons.
  rewrite Forall_forall in Habove2.
  apply Forall_cons in Habove1 as [Hk12 Habove1].
  rewrite Forall_forall in Habove1. cbn in *.
  exists k1, v1, k2, v2, ((k2, v2) :: m2), m2.
  split; [done |]. split; [done |].
  split; [by left |]. split; [right; by left |]. split; [done |].
  split; [| done].
  intros e. rewrite !elem_of_cons. split.
  - intros He. split; [tauto |].
    split; intros ->.
    + specialize (Habove1 _ He). cbn in Habove1.
      by rewrite less_irrefl in Habove1.
    + specialize (Habove2 _ He). cbn in Habove2.
      by rewrite less_irrefl in Habove2.
  - tauto.
Qed.
End Compositions.

Section Locking.
Context {K V : Type} {HK : Less K} {HV : EqualityComparable V}.
Implicit Types (m : list (K * V)) (key : K) (mu : shared_mutex).

(** X16: the guards of the methods besides the two that erase the head.
    The methods that only read declare a [std::shared_lock], those that
    write a [std::unique_lock], and [sizeNoThreadSafe] none.  So while
    [insert] runs no [get], [size] or [insert] can start but
    [sizeNoThreadSafe] can, and while [get] runs other readers can start
    and [insert] cannot. *)
Theorem lock_discipline key (v v' output : V) begin_ end_ dest nv ov caller :
  (guard (get key output) = Some shared_lock ∧
   guard (getTail (K:=K) output) = Some shared_lock ∧
   guard (getHead (K:=K) output) = Some shared_lock ∧
   guard (@size K V) = Some shared_lock ∧
   guard (@empty K V) = Some shared_lock ∧
   guard (contains (V:=V) key) = Some shared_lock ∧
   guard (getValues (K:=K) (V:=V) begin_ end_ dest) = Some shared_lock) ∧
  (guard (insert key v) = Some unique_lock ∧
   guard (erase (V:=V) key) = Some unique_lock ∧
   guard (@clear K V) = Some unique_lock ∧
   guard (putIfAbsent key v) = Some unique_lock ∧
   guard (remove key v) = Some unique_lock ∧
   guard (replace key v) = Some unique_lock ∧
   guard (insertOrReplace key v) = Some unique_lock ∧
   guard (insertOrReplace3 (V:=V) key nv ov caller) = Some unique_lock ∧
   guard (replace3 key v v') = Some unique_lock) ∧
  guard (@sizeNoThreadSafe K V) = None ∧
  (∀ mu mu',
     enter (insert key v) mu = Some mu' →
     enter (get key output) mu' = None ∧
     enter (@size K V) mu' = None ∧
     enter (insert key v) mu' = None ∧
     enter (@sizeNoThreadSafe K V) mu' = Some mu') ∧
  (∀ mu mu',
     enter (get key output) mu = Some mu' →
     is_Some (enter (get key output) mu') ∧
     is_Some (enter (@size K V) mu') ∧
     enter (insert key v) mu' = None).
Proof.
  split; [by repeat split |]. split; [by repeat split |].
  split; [done |]. split.
  - intros mu mu' Henter.
    pose proof (λ g, unique_lock_excludes g mu mu' Henter) as Hex.
    repeat split; apply Hex.
  - intros mu mu' Henter.
    destruct (shared_lock_admits mu mu' Henter) as [Hshared Hunique].
    by repeat split.
Qed.

(** X18: [getValues] writes only the positions it reports.  With [n]
    entries copied, the destination keeps its length and every element
    outside [begin_, begin_ + n), the element at [begin_ + i] is the
    [i]-th entry of the map, and [begin_ + n] is within the range; a range
    with room for the whole map receives the whole map. *)
Theorem getValues_writes_only_its_range begin_ end_ dest m :
  begin_ ≤ end_ → end_ ≤ length dest →
  ∃ n dest',
    body (getValues begin_ end_ dest) m = Some (begin_ + n, dest', m) ∧
    begin_ + n ≤ end_ ∧ n ≤ StdMap.size m ∧
    length dest' = length dest ∧
    (∀ i, i < begin_ ∨ begin_ + n ≤ i → dest' !! i = dest !! i) ∧
    (∀ i, i < n → dest' !! (begin_ + i) = m !! i) ∧
    (StdMap.size m ≤ end_ - begin_ →
       n = StdMap.size m ∧ take n (drop begin_ dest') = m).
Proof.
  intros Hle Hlast. unfold StdMap.size.
  set (n := length m `min` (end_ - begin_)).
  assert (length (take begin_ dest) = begin_) as Hpre
    by (rewrite length_take; lia).
  assert (length (take n m) = n) as Hmid by (rewrite length_take; lia).
  exists n, (take begin_ dest ++ take n m ++ drop (begin_ + n) dest).
  split.
  { method_body. unfold StdMap.begin_.
    rewrite getValues_loop_spec by lia. cbn. by rewrite Nat.sub_0_r. }
  split; [lia |]. split; [lia |]. split.
  { rewrite !length_app, Hpre, Hmid, length_drop. lia. }
  split; [| split].
  - intros i [Hi | Hi].
    + rewrite lookup_app_l by lia. by apply lookup_take_lt.
    + rewrite lookup_app_r by lia. rewrite lookup_app_r by lia.
      rewrite lookup_drop, Hpre, Hmid. f_equal. lia.
  - intros i Hi. rewrite lookup_app_r by lia.
    rewrite lookup_app_l by lia. rewrite Hpre.
    replace (begin_ + i - begin_) with i by lia. by apply lookup_take_lt.
  - intros Hroom. assert (n = length m) as Hn by lia. split; [done |].
    rewrite drop_app_length' by done.
    rewrite (take_ge m n) by lia. rewrite Hn. by rewrite take_app_length.
Qed.
End Locking.

(** ** The further properties at concrete maps *)

Local Abbreviation m13 := [(1%Z, 10%Z); (3%Z, 30%Z)].

Lemma get_returns_stored_value_witness :
  body (get 3%Z 0%Z) m13 = Some (true, 30%Z, m13).
Proof. apply (get_returns_stored_value 3%Z m13 0%Z); literal. Defined.

Lemma getHead_least_key_witness :
  ∃ k v, body (getHead 0%Z) m13 = Some (true, v, m13) ∧ (k, v) ∈ m13 ∧
         ∀ e, e ∈ m13 → e = (k, v) ∨ less k e.1 = true.
Proof. apply (getHead_least_key m13 0%Z); [literal | discriminate]. Defined.

Lemma getTail_greatest_key_witness :
  ∃ k v, body (getTail 0%Z) m13 = Some (true, v, m13) ∧ (k, v) ∈ m13 ∧
         ∀ e, e ∈ m13 → e = (k, v) ∨ less e.1 k = true.
Proof. apply (getTail_greatest_key m13 0%Z); [literal | discriminate]. Defined.

Lemma eraseHead_spec_witness :
  ∃ k v m', body eraseHead m13 = Some (true, m') ∧ (k, v) ∈ m13 ∧
            (∀ e, e ∈ m13 → e = (k, v) ∨ less k e.1 = true) ∧
            StdMap.wf m' ∧ (k ∉ StdMap.keys m') ∧
            (∀ e, e ∈ m' ↔ e ∈ m13 ∧ e ≠ (k, v)) ∧
            StdMap.size m13 = S (StdMap.size m').
Proof. apply (eraseHead_spec m13); [literal | discriminate]. Defined.

Lemma erase_spec_witness :
  ∃ m', body (erase 3%Z) m13 = Some (1, m') ∧ StdMap.wf m' ∧
        (3%Z ∉ StdMap.keys m') ∧
        (∀ e, e ∈ m' ↔ e ∈ m13 ∧ e ≠ (3%Z, 30%Z)) ∧
        StdMap.size m13 = S (StdMap.size m') ∧
        ∀ output : Z, body (get 3%Z output) m' = Some (false, output, m').
Proof. apply (erase_spec 3%Z m13); literal. Defined.

Lemma size_counts_keys_witness : NoDup (StdMap.keys m13).
Proof. apply (size_counts_keys 2%Z 20%Z m13). literal. Defined.

Lemma replace_only_updates_witness :
  ∃ m', body (replace 3%Z 33%Z) m13 = Some (true, m') ∧ StdMap.wf m' ∧
        (3%Z, 33%Z) ∈ m' ∧ StdMap.keys m' = StdMap.keys m13 ∧
        (∀ e, e.1 ≠ 3%Z → e ∈ m' ↔ e ∈ m13) ∧
        ∀ output, body (get 3%Z output) m' = Some (true, 33%Z, m').
Proof.
  refine (proj1 (replace_only_updates 3%Z 33%Z m13 _) 30%Z _); literal.
Defined.


Lemma insertOrReplace3_same_object_keeps_old_value_witness :
  body (insertOrReplace3 3%Z 0 0 [7%Z]) m13
  = Some (false, <[0 := 30%Z]> [7%Z], m13) ∧
  (<[0 := 30%Z]> [7%Z]) !! 0 = Some 30%Z ∧
  body (get 3%Z 0%Z) m13 = Some (true, 30%Z, m13).
Proof.
  apply (insertOrReplace3_same_object_keeps_old_value
           3%Z 0 [7%Z] 7%Z 30%Z m13 0%Z); [literal | reflexivity | literal].
Defined.

Lemma insert_erase_round_trip_witness :
  ∃ m', body (insert 2%Z 20%Z) m13 = Some (true, m') ∧
        body (erase 2%Z) m' = Some (1, m13).
Proof. apply (insert_erase_round_trip 2%Z 20%Z m13); literal. Defined.

Lemma putIfAbsent_returns_final_value_witness :
  ∃ r m', body (putIfAbsent 3%Z 31%Z) m13 = Some (r, m') ∧
          body (get 3%Z 0%Z) m' = Some (true, r, m') ∧
          (((3%Z ∉ StdMap.keys m13) ∧ r = 31%Z) ∨ ((3%Z, r) ∈ m13 ∧ m' = m13)).
Proof. apply (putIfAbsent_returns_final_value 3%Z 31%Z m13 0%Z). literal. Defined.

Lemma compound_methods_reduce_witness :
  (∃ m', body (replace 3%Z 33%Z) m13 = Some (true, m') ∧
         body (insertOrReplace 3%Z 33%Z) m13 = Some (false, m') ∧
         body (replace3 3%Z 30%Z 33%Z) m13 = Some (true, m')) ∧
  (∃ m', body (erase 3%Z) m13 = Some (1, m') ∧
         body (remove 3%Z 30%Z) m13 = Some (true, m')).
Proof. apply (compound_methods_reduce 3%Z 33%Z m13); literal. Defined.

Lemma insertOrReplace_idempotent_witness :
  ∃ b m', body (insertOrReplace 2%Z 20%Z) m13 = Some (b, m') ∧
          body (insertOrReplace 2%Z 20%Z) m' = Some (false, m') ∧
          body (replace 2%Z 20%Z) m' = Some (true, m').
Proof. apply (insertOrReplace_idempotent 2%Z 20%Z m13). literal. Defined.

Lemma insert_commutes_witness :
  ('(b1, m1) ← body (insert 2%Z 20%Z) m13;
   '(b2, m2) ← body (insert 3%Z 31%Z) m1;
   Some (b1, b2, m2))
  = ('(b2, m1) ← body (insert 3%Z 31%Z) m13;
     '(b1, m2) ← body (insert 2%Z 20%Z) m1;
     Some (b1, b2, m2)).
Proof.
  apply (insert_commutes 2%Z 3%Z 20%Z 31%Z m13); [literal | discriminate].
Defined.

Lemma getAndEraseHead_twice_ascending_witness :
  ∃ k1 v1 k2 v2 m1 m2,
    body (getAndEraseHead 0%Z) m13 = Some (true, v1, m1) ∧
    body (getAndEraseHead v1) m1 = Some (true, v2, m2) ∧
    (k1, v1) ∈ m13 ∧ (k2, v2) ∈ m13 ∧ less k1 k2 = true ∧
    (∀ e, e ∈ m2 ↔ e ∈ m13 ∧ e ≠ (k1, v1) ∧ e ≠ (k2, v2)) ∧
    StdMap.size m13 = S (S (StdMap.size m2)).
Proof.
  apply (getAndEraseHead_twice_ascending m13 0%Z); [literal | cbn; lia].
Defined.

Lemma getValues_writes_only_its_range_witness :
  ∃ n dest',
    body (getValues 1 3 [(0%Z, 0%Z); (0%Z, 0%Z); (0%Z, 0%Z); (0%Z, 0%Z)]) m13
    = Some (1 + n, dest', m13) ∧
    1 + n ≤ 3 ∧ n ≤ StdMap.size m13 ∧
    length dest'
    = length [(0%Z, 0%Z); (0%Z, 0%Z); (0%Z, 0%Z); (0%Z, 0%Z)] ∧
    (∀ i, i < 1 ∨ 1 + n ≤ i →
          dest' !! i
          = [(0%Z, 0%Z); (0%Z, 0%Z); (0%Z, 0%Z); (0%Z, 0%Z)] !! i) ∧
    (∀ i, i < n → dest' !! (1 + i) = m13 !! i) ∧
    (StdMap.size m13 ≤ 3 - 1 →
       n = StdMap.size m13 ∧ take n (drop 1 dest') = m13).
Proof.
  apply (getValues_writes_only_its_range 1 3
           [(0%Z, 0%Z); (0%Z, 0%Z); (0%Z, 0%Z); (0%Z, 0%Z)] m13);
    cbn; lia.
Defined.
